(** * Crazy Eights: a shallow embedding of the game logic of [App] and of
    [constants.ts], and the properties of its rule engine.

    The React component keeps one [GameState] record and replaces it through
    [setGameState]; events are handled one at a time, so every handler is
    modelled as a function of the state it reads to the state it publishes.
    A JavaScript [TypeError] (reading a field of [undefined]) is modelled by
    [None]. The message line and the thinking-time counter are presentation
    and are left out. *)

From stdpp Require Import base decidable option list strings.
From Stdlib Require Import ZArith Lia.

(** ** Data model ([types.ts]) *)

Inductive Suit := HEARTS | DIAMONDS | CLUBS | SPADES.

Inductive Rank :=
  | ACE | TWO | THREE | FOUR | FIVE | SIX | SEVEN
  | EIGHT | NINE | TEN | JACK | QUEEN | KING.

#[global] Instance Suit_eq_dec : EqDecision Suit.
Proof. solve_decision. Defined.

#[global] Instance Rank_eq_dec : EqDecision Rank.
Proof. solve_decision. Defined.

(** The string value of each enum member, used to build a card's [id]. *)
Definition suitValue (s : Suit) : string :=
  match s with
  | HEARTS => "HEARTS" | DIAMONDS => "DIAMONDS"
  | CLUBS => "CLUBS" | SPADES => "SPADES"
  end.

Definition rankValue (r : Rank) : string :=
  match r with
  | ACE => "A" | TWO => "2" | THREE => "3" | FOUR => "4" | FIVE => "5"
  | SIX => "6" | SEVEN => "7" | EIGHT => "8" | NINE => "9" | TEN => "10"
  | JACK => "J" | QUEEN => "Q" | KING => "K"
  end.

(** [card_id] is the field [id] of the source. *)
Record Card := mkCard { suit : Suit; rank : Rank; card_id : string }.

#[global] Instance Card_eq_dec : EqDecision Card.
Proof. solve_decision. Defined.

Inductive GameStatus := START | PLAYING | WILD_SELECTION | GAME_OVER.
Inductive Difficulty := EASY | MEDIUM | HARD.
Inductive Turn := PLAYER | AI.

#[global] Instance GameStatus_eq_dec : EqDecision GameStatus.
Proof. solve_decision. Defined.

#[global] Instance Difficulty_eq_dec : EqDecision Difficulty.
Proof. solve_decision. Defined.

#[global] Instance Turn_eq_dec : EqDecision Turn.
Proof. solve_decision. Defined.

Record GameState := mkGameState {
  deck : list Card;
  playerHand : list Card;
  aiHand : list Card;
  discardPile : list Card;
  currentTurn : Turn;
  status : GameStatus;
  winner : option Turn;
  activeSuit : option Suit;
  difficulty : Difficulty;
}.

#[global] Instance GameState_eq_dec : EqDecision GameState.
Proof. solve_decision. Defined.

(** The actor named by the flag [isPlayer], and its opponent. *)
Definition actorOf (isPlayer : bool) : Turn := if isPlayer then PLAYER else AI.
Definition otherOf (isPlayer : bool) : Turn := if isPlayer then AI else PLAYER.

Definition handOf (gameState : GameState) (isPlayer : bool) : list Card :=
  if isPlayer then playerHand gameState else aiHand gameState.

(** ** Card catalog ([constants.ts]) *)

Definition SUITS : list Suit := [HEARTS; DIAMONDS; CLUBS; SPADES].

Definition RANKS : list Rank :=
  [ACE; TWO; THREE; FOUR; FIVE; SIX; SEVEN; EIGHT; NINE; TEN; JACK; QUEEN; KING].

Definition newCard (s : Suit) (r : Rank) : Card :=
  mkCard s r (rankValue r +:+ "-" +:+ suitValue s).

(** The two nested [forEach] loops of [createDeck], each [push] appending. *)
Definition orderedDeck : list Card :=
  fold_left
    (λ deck s, fold_left (λ deck r, deck ++ [newCard s r]) RANKS deck)
    SUITS [].

(** [[d[i], d[j]] = [d[j], d[i]]]: both cells are read, then [d[i]] and
    [d[j]] are written. The loop of [shuffle] only uses indices in range. *)
Definition swap (i j : nat) (d : list Card) : list Card :=
  match d !! j, d !! i with
  | Some b, Some a => <[j := a]> (<[i := b]> d)
  | _, _ => d
  end.

(** The loop [for (i = length - 1; i > 0; i--)] of [shuffle]. The random
    source is an oracle [rnd]: the index [Math.floor(Math.random() * (i + 1))]
    drawn at loop index [i] is some index of [0 .. i], here [rnd i mod (i + 1)]. *)
Fixpoint shuffleFrom (rnd : nat → nat) (i : nat) (newDeck : list Card) : list Card :=
  match i with
  | 0 => newDeck
  | S i' => shuffleFrom rnd i' (swap i (rnd i mod (i + 1)) newDeck)
  end.

Definition shuffle (rnd : nat → nat) (deck : list Card) : list Card :=
  shuffleFrom rnd (length deck - 1) deck.

Definition createDeck (rnd : nat → nat) : list Card := shuffle rnd orderedDeck.

(** ** Rule engine ([App]) *)

(** [checkPlayable]: the top card is the last card of the discard pile; on an
    empty pile it is [undefined], and reading its rank throws. *)
Definition checkPlayable (gameState : GameState) (card : Card) : option bool :=
  let topCard := last (discardPile gameState) in
  if bool_decide (rank card = EIGHT) then Some true
  else if bool_decide (Some (suit card) = activeSuit gameState) then Some true
  else match topCard with
       | Some t => Some (bool_decide (rank card = rank t))
       | None => None
       end.

(** The record [suitCounts] after [newHand.forEach(c => suitCounts[c.suit]++)]. *)
Definition suitCounts (hand : list Card) : Suit → Z :=
  fold_left
    (λ (counts : Suit → Z) c s,
       if bool_decide (s = suit c) then (counts s + 1)%Z else counts s)
    hand (λ _, 0%Z).

(** The loop over [SUITS] that keeps [bestSuit] and [maxCount]. *)
Definition bestSuitFrom (counts : Suit → Z) : Suit * Z :=
  fold_left
    (λ '(bestSuit, maxCount) s,
       if bool_decide (counts s > maxCount)%Z then (s, counts s)
       else (bestSuit, maxCount))
    SUITS (HEARTS, (-1)%Z).

Definition bestSuit (newHand : list Card) : Suit :=
  fst (bestSuitFrom (suitCounts newHand)).

(** [playCard] publishes a new state; when the computer plays an eight it
    also schedules (after 1000 ms) the update that sets the suit it chose,
    returned here as the second component. *)
Definition playCard (gameState : GameState) (card : Card) (isPlayer : bool)
  : GameState * option Suit :=
  let newHand :=
    if isPlayer
    then filter (λ c, card_id c ≠ card_id card) (playerHand gameState)
    else filter (λ c, card_id c ≠ card_id card) (aiHand gameState) in
  let newDiscardPile := discardPile gameState ++ [card] in
  if bool_decide (length newHand = 0) then
    ({| deck := deck gameState;
        playerHand := if isPlayer then [] else playerHand gameState;
        aiHand := if isPlayer then aiHand gameState else [];
        discardPile := newDiscardPile;
        currentTurn := currentTurn gameState;
        status := GAME_OVER;
        winner := Some (if isPlayer then PLAYER else AI);
        activeSuit := activeSuit gameState;
        difficulty := difficulty gameState |}, None)
  else if bool_decide (rank card = EIGHT) then
    ({| deck := deck gameState;
        playerHand := if isPlayer then newHand else playerHand gameState;
        aiHand := if isPlayer then aiHand gameState else newHand;
        discardPile := newDiscardPile;
        currentTurn := currentTurn gameState;
        status := if isPlayer then WILD_SELECTION else PLAYING;
        winner := winner gameState;
        activeSuit := if isPlayer then activeSuit gameState else None;
        difficulty := difficulty gameState |},
     if isPlayer then None else Some (bestSuit newHand))
  else
    ({| deck := deck gameState;
        playerHand := if isPlayer then newHand else playerHand gameState;
        aiHand := if isPlayer then aiHand gameState else newHand;
        discardPile := newDiscardPile;
        currentTurn := if isPlayer then AI else PLAYER;
        status := status gameState;
        winner := winner gameState;
        activeSuit := Some (suit card);
        difficulty := difficulty gameState |}, None).

(** The callback of the [setTimeout] scheduled by [playCard]. *)
Definition wildTimeout (bestSuit : Suit) (prev : GameState) : GameState :=
  {| deck := deck prev;
     playerHand := playerHand prev;
     aiHand := aiHand prev;
     discardPile := discardPile prev;
     currentTurn := PLAYER;
     status := status prev;
     winner := winner prev;
     activeSuit := Some bestSuit;
     difficulty := difficulty prev |}.

(** [Array.prototype.pop] on a copy: the array without its last element,
    and that element. *)
Definition pop (l : list Card) : option (list Card * Card) :=
  match last l with
  | Some c => Some (take (length l - 1) l, c)
  | None => None
  end.

Definition drawCard (gameState : GameState) (isPlayer : bool) : option GameState :=
  if bool_decide (length (deck gameState) = 0) then
    Some {| deck := deck gameState;
            playerHand := playerHand gameState;
            aiHand := aiHand gameState;
            discardPile := discardPile gameState;
            currentTurn := if isPlayer then AI else PLAYER;
            status := status gameState;
            winner := winner gameState;
            activeSuit := activeSuit gameState;
            difficulty := difficulty gameState |}
  else
    match pop (deck gameState) with
    | None => None
    | Some (newDeck, drawnCard) =>
    match checkPlayable gameState drawnCard with
    | None => None
    | Some playable =>
    if isPlayer then
      Some {| deck := newDeck;
              playerHand := playerHand gameState ++ [drawnCard];
              aiHand := aiHand gameState;
              discardPile := discardPile gameState;
              currentTurn := if playable then PLAYER else AI;
              status := status gameState;
              winner := winner gameState;
              activeSuit := activeSuit gameState;
              difficulty := difficulty gameState |}
    else
      Some {| deck := newDeck;
              playerHand := playerHand gameState;
              aiHand := aiHand gameState ++ [drawnCard];
              discardPile := discardPile gameState;
              currentTurn := if playable then AI else PLAYER;
              status := status gameState;
              winner := winner gameState;
              activeSuit := activeSuit gameState;
              difficulty := difficulty gameState |}
    end end.

Definition selectWildSuit (prev : GameState) (s : Suit) : GameState :=
  {| deck := deck prev;
     playerHand := playerHand prev;
     aiHand := aiHand prev;
     discardPile := discardPile prev;
     currentTurn := AI;
     status := PLAYING;
     winner := winner prev;
     activeSuit := Some s;
     difficulty := difficulty prev |}.

Definition surrender (prev : GameState) : GameState :=
  {| deck := deck prev;
     playerHand := playerHand prev;
     aiHand := aiHand prev;
     discardPile := discardPile prev;
     currentTurn := currentTurn prev;
     status := GAME_OVER;
     winner := Some AI;
     activeSuit := activeSuit prev;
     difficulty := difficulty prev |}.

(** The state [useState] starts from, before any game. *)
Definition initialState : GameState :=
  {| deck := []; playerHand := []; aiHand := []; discardPile := [];
     currentTurn := PLAYER; status := START; winner := None;
     activeSuit := None; difficulty := MEDIUM |}.

(** The loop [while (fullDeck[firstDiscardIndex].rank === Rank.EIGHT)
    firstDiscardIndex++], run on the cards from [firstDiscardIndex] on:
    it stops at the first card that is not an eight, and throws when it
    runs past the end of the array. *)
Fixpoint skipEights (rest : list Card) (firstDiscardIndex : nat) : option nat :=
  match rest with
  | [] => None
  | c :: rest' =>
      if bool_decide (rank c = EIGHT) then skipEights rest' (S firstDiscardIndex)
      else Some firstDiscardIndex
  end.

(** [initGame]; the two [splice(0, 8)] take the hands off the front of the
    deck, and [splice(firstDiscardIndex, 1)] takes the first discard out. *)
Definition initGame (rnd : nat → nat) (difficulty : Difficulty) : option GameState :=
  let fullDeck := createDeck rnd in
  let playerHand := take 8 fullDeck in
  let fullDeck := drop 8 fullDeck in
  let aiHand := take 8 fullDeck in
  let fullDeck := drop 8 fullDeck in
  match skipEights fullDeck 0 with
  | None => None
  | Some firstDiscardIndex =>
  match fullDeck !! firstDiscardIndex with
  | None => None
  | Some firstDiscard =>
  let fullDeck := delete firstDiscardIndex fullDeck in
  let discardPile := [firstDiscard] in
  Some {| deck := fullDeck;
          playerHand := playerHand;
          aiHand := aiHand;
          discardPile := discardPile;
          currentTurn := PLAYER;
          status := PLAYING;
          winner := None;
          activeSuit := suit <$> head discardPile;
          difficulty := difficulty |}
  end end.

(** ** The handlers the interface wires to the rule engine *)

(** A card of the player's hand: [PlayingCard] installs [onClick] only when
    its [isPlayable] prop holds ([onClick={isPlayable ? onClick : undefined}]),
    and the prop is [currentTurn === 'PLAYER' && status === 'PLAYING' &&
    checkPlayable(card)]. *)
Definition onCardClick (gameState : GameState) (card : Card)
  : option (GameState * option Suit) :=
  match
    (if bool_decide (currentTurn gameState = PLAYER) then
       if bool_decide (status gameState = PLAYING) then checkPlayable gameState card
       else Some false
     else Some false)
  with
  | None => None
  | Some isPlayable =>
      Some (if isPlayable then playCard gameState card true else (gameState, None))
  end.

(** The deck: [gameState.currentTurn === 'PLAYER' && drawCard(true)]. *)
Definition onDeckClick (gameState : GameState) : option GameState :=
  if bool_decide (currentTurn gameState = PLAYER) then drawCard gameState true
  else Some gameState.

(** The suit buttons exist only while [status === "WILD_SELECTION"]. *)
Definition onSuitClick (gameState : GameState) (s : Suit) : GameState :=
  if bool_decide (status gameState = WILD_SELECTION) then selectWildSuit gameState s
  else gameState.

(** [gameState.aiHand.filter(checkPlayable)], which throws when a call does. *)
Fixpoint filterPlayable (gameState : GameState) (hand : list Card)
  : option (list Card) :=
  match hand with
  | [] => Some []
  | c :: hand' =>
      match checkPlayable gameState c with
      | None => None
      | Some keep =>
          match filterPlayable gameState hand' with
          | None => None
          | Some rest => Some (if keep then c :: rest else rest)
          end
      end
  end.

(** [nonEights.reduce((prev, curr) => suitCounts[curr.suit] >
    suitCounts[prev.suit] ? curr : prev)], on a non-empty array. *)
Definition reduceBySuitCount (counts : Suit → Z) (nonEights : list Card)
  : option Card :=
  match nonEights with
  | [] => None
  | c :: cs =>
      Some (fold_left
              (λ prev curr,
                 if bool_decide (counts (suit curr) > counts (suit prev))%Z
                 then curr else prev)
              cs c)
  end.

(** The card the computer plays, by difficulty; [pick] is the random draw of
    the EASY tier, an index [pick mod length] of the playable cards. *)
Definition cardToPlay (gameState : GameState) (pick : nat)
    (playableCards : list Card) : option Card :=
  match difficulty gameState with
  | EASY => playableCards !! (pick mod length playableCards)
  | MEDIUM =>
      match List.find (λ c, bool_decide (rank c ≠ EIGHT)) playableCards with
      | Some nonEight => Some nonEight
      | None => head playableCards
      end
  | HARD =>
      let nonEights := filter (λ c, rank c ≠ EIGHT) playableCards in
      if bool_decide (0 < length nonEights) then
        reduceBySuitCount (suitCounts (aiHand gameState)) nonEights
      else head playableCards
  end.

(** The computer's deferred move (the timer of the [useEffect]), which runs
    when it is the computer's turn in the PLAYING phase. *)
Definition aiTurn (gameState : GameState) (pick : nat)
  : option (GameState * option Suit) :=
  if bool_decide (currentTurn gameState = AI ∧ status gameState = PLAYING) then
    match filterPlayable gameState (aiHand gameState) with
    | None => None
    | Some playableCards =>
        if bool_decide (0 < length playableCards) then
          match cardToPlay gameState pick playableCards with
          | Some c => Some (playCard gameState c false)
          | None => None
          end
        else
          match drawCard gameState false with
          | Some gameState' => Some (gameState', None)
          | None => None
          end
    end
  else Some (gameState, None).

(** ** The game as a transition system *)

(** The application state: the published [GameState] and the suits of the
    wild-suit updates that are scheduled and have not run yet (they all wait
    the same 1000 ms, so they run in the order they were scheduled). *)
Record App := mkApp { game : GameState; timers : list Suit }.

(** One core operation. [playCard] is called on a card of the actor's hand,
    as both of its callers do; nothing else is asked of the caller. *)
Inductive step : App → App → Prop :=
  | step_playCard gs ts card isPlayer gs' t :
      card ∈ handOf gs isPlayer →
      playCard gs card isPlayer = (gs', t) →
      step (mkApp gs ts) (mkApp gs' (ts ++ option_list t))
  | step_drawCard gs ts isPlayer gs' :
      drawCard gs isPlayer = Some gs' →
      step (mkApp gs ts) (mkApp gs' ts)
  | step_selectWildSuit gs ts s :
      step (mkApp gs ts) (mkApp (selectWildSuit gs s) ts)
  | step_surrender gs ts :
      step (mkApp gs ts) (mkApp (surrender gs) ts)
  | step_wildTimeout gs s ts :
      step (mkApp gs (s :: ts)) (mkApp (wildTimeout s gs) ts).

(** The states of a game: a fresh deal of a shuffled deck, then any number
    of core operations. *)
Inductive reachable : App → Prop :=
  | reachable_init rnd d gs :
      initGame rnd d = Some gs → reachable (mkApp gs [])
  | reachable_step a a' :
      reachable a → step a a' → reachable a'.

(** One event of the interface: a click on a card of the player's hand, on
    the deck or on a suit button, the surrender button (shown only in the
    PLAYING phase), the computer's deferred move, a scheduled wild-suit
    update. *)
Inductive event : App → App → Prop :=
  | event_card gs ts card gs' t :
      card ∈ playerHand gs →
      onCardClick gs card = Some (gs', t) →
      event (mkApp gs ts) (mkApp gs' (ts ++ option_list t))
  | event_deck gs ts gs' :
      onDeckClick gs = Some gs' →
      event (mkApp gs ts) (mkApp gs' ts)
  | event_suit gs ts s :
      event (mkApp gs ts) (mkApp (onSuitClick gs s) ts)
  | event_surrender gs ts :
      status gs = PLAYING →
      event (mkApp gs ts) (mkApp (surrender gs) ts)
  | event_ai gs ts pick gs' t :
      aiTurn gs pick = Some (gs', t) →
      event (mkApp gs ts) (mkApp gs' (ts ++ option_list t))
  | event_timeout gs s ts :
      event (mkApp gs (s :: ts)) (mkApp (wildTimeout s gs) ts).

(** The states of a game as the interface plays it. *)
Inductive played : App → Prop :=
  | played_init rnd d gs :
      initGame rnd d = Some gs → played (mkApp gs [])
  | played_event a a' :
      played a → event a a' → played a'.

(** ** Specification vocabulary *)

(** The game invariant: the four zones together hold the 52 cards of the
    deck, each once. *)
Definition zones (gs : GameState) : list Card :=
  deck gs ++ playerHand gs ++ aiHand gs ++ discardPile gs.

Definition conserved (gs : GameState) : Prop := zones gs ≡ₚ orderedDeck.

(** The number of cards of a suit in a hand. *)
Definition countSuit (s : Suit) (hand : list Card) : nat :=
  length (filter (λ c, suit c = s) hand).

(** The position of a suit in the enumeration [SUITS]. *)
Definition suitIndex (s : Suit) : nat :=
  match s with HEARTS => 0 | DIAMONDS => 1 | CLUBS => 2 | SPADES => 3 end.

(** The legality rule, in the words of the rules: an eight, or the active
    suit, or the rank of the top card. *)
Definition legal (card topCard : Card) (active : option Suit) : Prop :=
  rank card = EIGHT ∨ Some (suit card) = active ∨ rank card = rank topCard.

#[global] Instance legal_dec card topCard active : Decision (legal card topCard active).
Proof. unfold legal. apply _. Defined.

(** ** A game played out, used as the running example

    The shuffle draws [j = i] at every loop index but 46, where it draws 8:
    the eight of spades goes to the computer's hand. The player holds
    A♥ .. 8♥, the computer 8♠ 10♥ J♥ Q♥ K♥ A♦ 2♦ 3♦, and 4♦ is turned up. *)

Definition rndExample (i : nat) : nat := if Nat.eqb i 46 then 8 else i.

Definition dealt : GameState :=
  Eval vm_compute in default initialState (initGame rndExample EASY).

(** The player answers 4♦ with 4♥ ... *)
Definition afterFour : GameState :=
  Eval vm_compute in (playCard dealt (newCard HEARTS FOUR) true).1.

(** ... and the computer, on the EASY tier, plays its eight. *)
Definition afterEight : GameState :=
  Eval vm_compute in (playCard afterFour (newCard SPADES EIGHT) false).1.

(** [n] draws in a row by the same actor. *)
Fixpoint drawCards (n : nat) (gameState : GameState) (isPlayer : bool)
  : option GameState :=
  match n with
  | 0 => Some gameState
  | S n' =>
      match drawCard gameState isPlayer with
      | Some gameState' => drawCards n' gameState' isPlayer
      | None => None
      end
  end.

(** The deal above after the player has drawn the whole deck. *)
Definition drained : GameState :=
  Eval vm_compute in default initialState (drawCards 35 dealt true).

(** A game about to end: the computer holds one card. *)
Definition lastCard : GameState :=
  {| deck := []; playerHand := [newCard CLUBS TWO; newCard HEARTS NINE];
     aiHand := [newCard SPADES FIVE];
     discardPile := [newCard SPADES KING];
     currentTurn := AI; status := PLAYING; winner := None;
     activeSuit := Some SPADES; difficulty := HARD |}.

(** The deal of the example after the player gave up, and after a click on
    the deck in that finished game. *)
Definition gaveUp : GameState := Eval vm_compute in surrender dealt.

Definition gaveUpDrew : GameState :=
  Eval vm_compute in default initialState (drawCard gaveUp true).

(** The computer to move with nothing to play on K♠ (MEDIUM tier). *)
Definition mustDraw : GameState :=
  {| deck := [newCard HEARTS NINE];
     playerHand := [newCard SPADES TWO; newCard HEARTS ACE];
     aiHand := [newCard CLUBS TWO; newCard DIAMONDS JACK];
     discardPile := [newCard SPADES KING];
     currentTurn := AI; status := PLAYING; winner := None;
     activeSuit := Some SPADES; difficulty := MEDIUM |}.

(** The computer to move on 3♠ with 3♥ 3♦ 7♦ 8♣ in hand (HARD tier). *)
Definition hardChoice : GameState :=
  {| deck := [newCard HEARTS NINE];
     playerHand := [newCard SPADES TWO; newCard HEARTS ACE];
     aiHand := [newCard HEARTS THREE; newCard DIAMONDS THREE;
                newCard DIAMONDS SEVEN; newCard CLUBS EIGHT];
     discardPile := [newCard SPADES THREE];
     currentTurn := AI; status := PLAYING; winner := None;
     activeSuit := Some SPADES; difficulty := HARD |}.

(** ** The card catalog *)

Section catalog.

Lemma orderedDeck_length : length orderedDeck = 52.
Proof. reflexivity. Qed.

(** No two cards of the deck share an [id]. *)
Lemma orderedDeck_ids_NoDup : NoDup (card_id <$> orderedDeck).
Proof. apply (bool_decide_unpack _). vm_compute. exact I. Qed.

Lemma orderedDeck_eights :
  length (filter (λ c, rank c = EIGHT) orderedDeck) = 4.
Proof. reflexivity. Qed.

Lemma insert_delete_Permutation (d : list Card) i x :
  i < length d → <[i := x]> d ≡ₚ x :: delete i d.
Proof.
  intros Hi. rewrite insert_take_drop, delete_take_drop by done.
  by rewrite Permutation_middle.
Qed.

Lemma swap_Permutation i j (d : list Card) : swap i j d ≡ₚ d.
Proof.
  unfold swap.
  destruct (d !! j) as [b|] eqn:Hj; [|done].
  destruct (d !! i) as [a|] eqn:Hi; [|done].
  destruct (decide (i = j)) as [->|Hij].
  - rewrite list_insert_insert_eq. by rewrite list_insert_id.
  - pose proof (lookup_lt_Some _ _ _ Hi) as Hli.
    pose proof (lookup_lt_Some _ _ _ Hj) as Hlj.
    assert (<[i := b]> d !! j = Some b) as Hj'
      by (by rewrite list_lookup_insert_ne).
    etrans; [apply insert_delete_Permutation; by rewrite length_insert|].
    etrans; [|symmetry; apply (delete_Permutation d i a Hi)].
    apply Permutation_cons; [done|].
    apply (Permutation_cons_inv (a := b)).
    etrans; [symmetry; apply (delete_Permutation _ j b Hj')|].
    by apply insert_delete_Permutation.
Qed.

Lemma shuffleFrom_Permutation rnd i (d : list Card) : shuffleFrom rnd i d ≡ₚ d.
Proof.
  revert d. induction i as [|i IH]; intros d; simpl; [done|].
  by rewrite IH, swap_Permutation.
Qed.

(** [shuffle] returns the cards it was given, in some order. *)
Lemma shuffle_Permutation rnd (d : list Card) : shuffle rnd d ≡ₚ d.
Proof. apply shuffleFrom_Permutation. Qed.

Lemma createDeck_Permutation rnd : createDeck rnd ≡ₚ orderedDeck.
Proof. apply shuffle_Permutation. Qed.

Lemma createDeck_length rnd : length (createDeck rnd) = 52.
Proof. by rewrite createDeck_Permutation. Qed.

End catalog.

(** ** Removing a card from a hand by its [id] *)

Section hands.

Implicit Types (hand : list Card) (card : Card).

Lemma filter_other_ids hand card :
  card_id card ∉ card_id <$> hand →
  filter (λ c, card_id c ≠ card_id card) hand = hand.
Proof.
  induction hand as [|x hand IH]; intros Hnot; [done|].
  rewrite fmap_cons, not_elem_of_cons in Hnot. destruct Hnot as [Hx Hrest].
  rewrite filter_cons_True by congruence. by rewrite IH.
Qed.

(** In a hand without duplicate ids, the filter of [playCard] removes the
    played card and nothing else. *)
Lemma filter_id_removes hand card :
  NoDup (card_id <$> hand) → card ∈ hand →
  hand ≡ₚ card :: filter (λ c, card_id c ≠ card_id card) hand.
Proof.
  induction hand as [|x hand IH]; intros Hnd Hin.
  - by apply not_elem_of_nil in Hin.
  - rewrite fmap_cons, NoDup_cons in Hnd. destruct Hnd as [Hx Hnd].
    destruct (decide (card = x)) as [->|Hne].
    + rewrite filter_cons_False by (intros H; by apply H).
      by rewrite filter_other_ids.
    + apply elem_of_cons in Hin as [?|Hin]; [done|].
      assert (card_id x ≠ card_id card) as Hid.
      { intros Heq. apply Hx. rewrite Heq. by apply list_elem_of_fmap_2. }
      rewrite filter_cons_True by done.
      rewrite (IH Hnd Hin) at 1. apply perm_swap.
Qed.

(** A hand of two or more cards with distinct ids keeps a card after any
    card is played. *)
Lemma filter_id_nonempty hand card :
  NoDup (card_id <$> hand) → 1 < length hand →
  filter (λ c, card_id c ≠ card_id card) hand ≠ [].
Proof.
  intros Hnd Hlen Hnil.
  destruct hand as [|x [|y hand]]; simpl in Hlen; try lia.
  rewrite !fmap_cons, !NoDup_cons, not_elem_of_cons in Hnd.
  destruct Hnd as [[Hxy _] _].
  destruct (decide (card_id x = card_id card)) as [Hx|Hx].
  - apply (filter_nil_not_elem_of _ _ y) in Hnil; [|congruence].
    apply Hnil. apply list_elem_of_further, list_elem_of_here.
  - apply (filter_nil_not_elem_of _ _ x) in Hnil; [|done].
    apply Hnil. apply list_elem_of_here.
Qed.

End hands.

(** ** Dealing *)

Section dealing.

Lemma skipEights_Some rest i k :
  skipEights rest i = Some k →
  ∃ n c, k = i + n ∧ rest !! n = Some c ∧ rank c ≠ EIGHT.
Proof.
  revert i. induction rest as [|x rest IH]; intros i Hk; simpl in Hk; [done|].
  case_bool_decide as Hx.
  - destruct (IH _ Hk) as (n & c & -> & Hn & Hc).
    exists (S n), c. split_and!; [lia|done|done].
  - injection Hk as <-. exists 0, x. split_and!; [lia|done|done].
Qed.

Lemma skipEights_None rest i :
  skipEights rest i = None → filter (λ c, rank c = EIGHT) rest = rest.
Proof.
  revert i. induction rest as [|x rest IH]; intros i Hk; simpl in Hk; [done|].
  case_bool_decide as Hx; [|done].
  rewrite filter_cons_True by done. by rewrite (IH _ Hk).
Qed.

(** The loop that looks for the first discard finds one: the 36 cards left
    after the two hands hold at most four eights. *)
Lemma skipEights_full (full : list Card) :
  full ≡ₚ orderedDeck →
  is_Some (skipEights (drop 8 (drop 8 full)) 0).
Proof.
  intros Hperm.
  destruct (skipEights _ 0) as [k|] eqn:Hk; [by eexists|exfalso].
  apply skipEights_None in Hk.
  pose proof (Permutation_length Hperm) as Hlen.
  rewrite orderedDeck_length in Hlen.
  apply (filter_Permutation (λ c, rank c = EIGHT)), Permutation_length in Hperm.
  rewrite orderedDeck_eights in Hperm.
  rewrite <- (take_drop 16 full), filter_app, length_app in Hperm.
  rewrite drop_drop in Hk. change (8 + 8) with 16 in Hk.
  rewrite Hk, length_drop in Hperm. lia.
Qed.

(** [initGame] never throws: a game can always be started. *)
Lemma initGame_total rnd d : is_Some (initGame rnd d).
Proof.
  unfold initGame.
  pose proof (skipEights_full _ (createDeck_Permutation rnd)) as [k Hk].
  generalize dependent (createDeck rnd). intros full Hk.
  rewrite Hk.
  apply skipEights_Some in Hk as (n & c & -> & Hn & _).
  rewrite Nat.add_0_l, Hn. by eexists.
Qed.

(** What a fresh deal looks like. *)
Lemma initGame_Some rnd d gs :
  initGame rnd d = Some gs →
  conserved gs ∧
  length (playerHand gs) = 8 ∧ length (aiHand gs) = 8 ∧
  (∃ c, discardPile gs = [c] ∧ rank c ≠ EIGHT ∧ activeSuit gs = Some (suit c)) ∧
  currentTurn gs = PLAYER ∧ status gs = PLAYING ∧ winner gs = None ∧
  difficulty gs = d.
Proof.
  unfold initGame, conserved, zones.
  pose proof (createDeck_Permutation rnd) as Hperm.
  generalize dependent (createDeck rnd). intros full Hperm.
  pose proof (Permutation_length Hperm) as Hlen.
  rewrite orderedDeck_length in Hlen.
  destruct (skipEights _ 0) as [k|] eqn:Hk; [|done].
  apply skipEights_Some in Hk as (n & c & -> & Hn & Hc).
  rewrite Nat.add_0_l, Hn. intros [= <-]. cbn [deck playerHand aiHand
    discardPile currentTurn status winner activeSuit difficulty].
  split_and!; try done.
  - etrans; [|exact Hperm].
    rewrite <- (take_drop 8 full) at 4.
    rewrite <- (take_drop 8 (drop 8 full)) at 3.
    rewrite (delete_Permutation _ _ _ Hn) at 2.
    rewrite (Permutation_app_comm (delete n _)).
    rewrite <- !(assoc_L (++)). do 2 f_equiv.
    done.
  - rewrite length_take. lia.
  - rewrite length_take, length_drop. lia.
  - by exists c.
Qed.

End dealing.

(** ** The zones of a game *)

Section zones.

Implicit Types (gs : GameState) (card : Card) (isPlayer : bool).

Lemma conserved_length gs :
  conserved gs →
  length (deck gs) + length (playerHand gs) + length (aiHand gs)
    + length (discardPile gs) = 52.
Proof.
  intros Hc. apply Permutation_length in Hc.
  unfold zones in Hc. rewrite !length_app, orderedDeck_length in Hc. lia.
Qed.

Lemma conserved_hand_ids gs isPlayer :
  conserved gs → NoDup (card_id <$> handOf gs isPlayer).
Proof.
  unfold conserved, zones. intros Hc.
  pose proof orderedDeck_ids_NoDup as Hnd. rewrite <- Hc in Hnd.
  rewrite !fmap_app, !NoDup_app in Hnd.
  destruct isPlayer; simpl; tauto.
Qed.

Lemma pop_Some (l newDeck : list Card) c :
  pop l = Some (newDeck, c) → l = newDeck ++ [c].
Proof.
  unfold pop. destruct (last l) as [x|] eqn:Hlast; [|done].
  intros [= <- <-]. apply last_Some in Hlast as [l' ->].
  rewrite length_app. simpl.
  replace (length l' + 1 - 1) with (length l') by lia.
  by rewrite take_app_length.
Qed.

Lemma pop_snoc (newDeck : list Card) c : pop (newDeck ++ [c]) = Some (newDeck, c).
Proof.
  unfold pop. rewrite last_snoc, length_app. simpl.
  replace (length newDeck + 1 - 1) with (length newDeck) by lia.
  by rewrite take_app_length.
Qed.

Lemma zones_play_player (D P P' A X : list Card) card :
  P ≡ₚ card :: P' → D ++ P' ++ A ++ X ++ [card] ≡ₚ D ++ P ++ A ++ X.
Proof. intros ->. solve_Permutation. Qed.

Lemma zones_play_ai (D P A A' X : list Card) card :
  A ≡ₚ card :: A' → D ++ P ++ A' ++ X ++ [card] ≡ₚ D ++ P ++ A ++ X.
Proof. intros ->. solve_Permutation. Qed.

Lemma playCard_conserved gs card isPlayer :
  conserved gs → card ∈ handOf gs isPlayer →
  conserved (playCard gs card isPlayer).1.
Proof.
  intros Hc Hin.
  pose proof (filter_id_removes _ _ (conserved_hand_ids gs isPlayer Hc) Hin)
    as Hhand.
  unfold conserved, zones in *. unfold playCard.
  destruct isPlayer; simpl in Hhand, Hin;
    repeat case_bool_decide;
    cbn [fst deck playerHand aiHand discardPile];
    rewrite <- Hc;
    (apply zones_play_player || apply zones_play_ai);
    try done;
    match goal with
    | H : length ?l = 0 |- _ => by rewrite (nil_length_inv _ H) in Hhand
    end.
Qed.

Lemma drawCard_conserved gs isPlayer gs' :
  conserved gs → drawCard gs isPlayer = Some gs' → conserved gs'.
Proof.
  unfold conserved, zones, drawCard. intros Hc.
  case_bool_decide as Hempty.
  - by intros [= <-].
  - destruct (pop (deck gs)) as [[newDeck drawnCard]|] eqn:Hpop; [|done].
    apply pop_Some in Hpop.
    destruct (checkPlayable gs drawnCard) as [playable|]; [|done].
    rewrite Hpop in Hc.
    destruct isPlayer; intros [= <-];
      cbn [deck playerHand aiHand discardPile];
      rewrite <- Hc; solve_Permutation.
Qed.

End zones.

(** ** The legality rule *)

Section legality.

Implicit Types (gs : GameState) (card topCard : Card).

Lemma checkPlayable_eight gs card :
  rank card = EIGHT → checkPlayable gs card = Some true.
Proof. intros H. unfold checkPlayable. by rewrite bool_decide_eq_true_2. Qed.

Lemma checkPlayable_legal gs card topCard :
  last (discardPile gs) = Some topCard →
  checkPlayable gs card
  = Some (bool_decide (legal card topCard (activeSuit gs))).
Proof.
  intros Htop. unfold checkPlayable, legal. rewrite Htop.
  repeat case_bool_decide; try done; f_equal; tauto.
Qed.

End legality.

(** ** The computer's choice *)

Section policy.

Implicit Types (gs : GameState) (hand playableCards : list Card).

(** The playable cards are cards of the hand that [checkPlayable] accepts. *)
Lemma filterPlayable_Some gs hand playableCards c :
  filterPlayable gs hand = Some playableCards → c ∈ playableCards →
  c ∈ hand ∧ checkPlayable gs c = Some true.
Proof.
  revert playableCards.
  induction hand as [|x hand IH]; intros playableCards Hf Hin; simpl in Hf.
  - injection Hf as <-. by apply not_elem_of_nil in Hin.
  - destruct (checkPlayable gs x) as [keep|] eqn:Hx; [|done].
    destruct (filterPlayable gs hand) as [rest|]; [|done].
    injection Hf as <-. destruct keep.
    + apply elem_of_cons in Hin as [->|Hin].
      * split; [apply list_elem_of_here|done].
      * destruct (IH _ eq_refl Hin). split; [by apply list_elem_of_further|done].
    + destruct (IH _ eq_refl Hin). split; [by apply list_elem_of_further|done].
Qed.

Lemma reduceBySuitCount_elem counts (nonEights : list Card) c :
  reduceBySuitCount counts nonEights = Some c → c ∈ nonEights.
Proof.
  destruct nonEights as [|x cs]; [done|]. simpl. intros [= <-].
  assert (∀ prev,
    fold_left
      (λ prev curr,
         if bool_decide (counts (suit curr) > counts (suit prev))%Z
         then curr else prev) cs prev ∈ prev :: cs) as Hfold.
  { induction cs as [|y cs IH]; intros prev; simpl.
    - apply list_elem_of_here.
    - case_bool_decide.
      + apply list_elem_of_further, IH.
      + specialize (IH prev). apply elem_of_cons in IH as [->|IH].
        * apply list_elem_of_here.
        * by do 2 apply list_elem_of_further. }
  apply Hfold.
Qed.

(** Whatever the difficulty, the card chosen is one of the playable cards. *)
Lemma cardToPlay_elem gs pick playableCards c :
  cardToPlay gs pick playableCards = Some c → c ∈ playableCards.
Proof.
  unfold cardToPlay. destruct (difficulty gs).
  - apply list_elem_of_lookup_2.
  - destruct (find _ _) as [nonEight|] eqn:Hfind.
    + intros [= <-]. apply find_some in Hfind as [Hin _].
      by apply list_elem_of_In.
    + apply head_Some_elem_of.
  - case_bool_decide.
    + intros Hr%reduceBySuitCount_elem.
      by apply list_elem_of_filter in Hr as [_ ?].
    + apply head_Some_elem_of.
Qed.

End policy.

(** ** Invariants of the transition system *)

Section system.

Implicit Types (gs : GameState) (a : App).

Lemma step_conserved a a' :
  conserved (game a) → step a a' → conserved (game a').
Proof.
  intros Hc Hstep. destruct Hstep as
    [gs ts card isPlayer gs' t Hin Hplay|gs ts isPlayer gs' Hdraw| | |];
    simpl in *; try done.
  - replace gs' with (playCard gs card isPlayer).1 by (by rewrite Hplay).
    by apply playCard_conserved.
  - by eapply drawCard_conserved.
Qed.

Lemma reachable_conserved a : reachable a → conserved (game a).
Proof.
  induction 1 as [rnd d gs Hinit|a a' _ IH Hstep].
  - by apply initGame_Some in Hinit as [? _].
  - by eapply step_conserved.
Qed.

(** Once dealt, the discard pile is never empty, so [checkPlayable]
    never reads a missing top card. *)
Lemma step_discardPile a a' :
  discardPile (game a) ≠ [] → step a a' → discardPile (game a') ≠ [].
Proof.
  intros Hd Hstep. destruct Hstep as
    [gs ts card isPlayer gs' t Hin Hplay|gs ts isPlayer gs' Hdraw| | |];
    simpl in *; try done.
  - unfold playCard in Hplay.
    repeat case_bool_decide; injection Hplay as <- <-; simpl;
      by intros [_ ?]%app_nil.
  - unfold drawCard in Hdraw. case_bool_decide; [by injection Hdraw as <-|].
    destruct (pop _) as [[??]|]; [|done].
    destruct (checkPlayable _ _); [|done].
    by destruct isPlayer; injection Hdraw as <-.
Qed.

Lemma reachable_discardPile a : reachable a → discardPile (game a) ≠ [].
Proof.
  induction 1 as [rnd d gs Hinit|a a' _ IH Hstep].
  - apply initGame_Some in Hinit as (_ & _ & _ & (c & Hd & _) & _).
    simpl. by rewrite Hd.
  - by eapply step_discardPile.
Qed.

(** So [drawCard] never throws in a game. *)
Lemma drawCard_total a isPlayer :
  reachable a → is_Some (drawCard (game a) isPlayer).
Proof.
  intros Hd%reachable_discardPile. unfold drawCard.
  case_bool_decide as Hdeck; [by eexists|].
  apply last_is_Some in Hd as [topCard Htop].
  assert (deck (game a) ≠ []) as [c Hc]%last_is_Some
    by (intros Heq; apply Hdeck; by rewrite Heq).
  apply last_Some in Hc as [newDeck ->].
  rewrite pop_snoc, (checkPlayable_legal _ _ _ Htop).
  destruct isPlayer; by eexists.
Qed.

(** The active suit is missing only while a wild-suit update is scheduled. *)
Lemma step_activeSuit a a' :
  (timers a = [] → is_Some (activeSuit (game a))) → step a a' →
  timers a' = [] → is_Some (activeSuit (game a')).
Proof.
  intros Ha Hstep. destruct Hstep as
    [gs ts card isPlayer gs' t Hin Hplay|gs ts isPlayer gs' Hdraw| | |];
    simpl in *; try done.
  - intros [-> Ht]%app_nil. unfold playCard in Hplay.
    repeat case_bool_decide; injection Hplay as <- <-; simpl in *;
      destruct isPlayer; simpl in *; auto; done.
  - intros Hts. unfold drawCard in Hdraw.
    case_bool_decide; [injection Hdraw as <-; auto|].
    destruct (pop _) as [[??]|]; [|done].
    destruct (checkPlayable _ _); [|done].
    destruct isPlayer; injection Hdraw as <-; auto.
Qed.

Lemma reachable_activeSuit a :
  reachable a → timers a = [] → is_Some (activeSuit (game a)).
Proof.
  induction 1 as [rnd d gs Hinit|a a' _ IH Hstep].
  - apply initGame_Some in Hinit as (_ & _ & _ & (c & _ & _ & Hs) & _).
    simpl. by rewrite Hs.
  - by eapply step_activeSuit.
Qed.

(** Every event of the interface is a core operation or changes nothing. *)
Lemma event_step a a' : event a a' → a' = a ∨ step a a'.
Proof.
  destruct 1 as [gs ts card gs' t Hin Hclick|gs ts gs' Hclick|gs ts s
                |gs ts Hst|gs ts pick gs' t Hai|gs s ts].
  - unfold onCardClick in Hclick.
    destruct (if bool_decide (currentTurn gs = PLAYER) then _ else _)
      as [[]|]; [| |done]; apply (inj Some) in Hclick.
    + right. by apply (step_playCard gs ts card true).
    + left. injection Hclick as <- <-. simpl. by rewrite app_nil_r.
  - unfold onDeckClick in Hclick. case_bool_decide.
    + right. by apply (step_drawCard gs ts true).
    + left. by injection Hclick as <-.
  - unfold onSuitClick. case_bool_decide; [right; constructor|by left].
  - right. constructor.
  - unfold aiTurn in Hai. case_bool_decide.
    + destruct (filterPlayable gs (aiHand gs)) as [playableCards|] eqn:Hf;
        [|done].
      case_bool_decide.
      * destruct (cardToPlay gs pick playableCards) as [c|] eqn:Hc; [|done].
        apply (inj Some) in Hai. right.
        apply (step_playCard gs ts c false); [|done].
        apply cardToPlay_elem in Hc.
        by destruct (filterPlayable_Some _ _ _ _ Hf Hc).
      * destruct (drawCard gs false) as [gs1|] eqn:Hd; [|done].
        injection Hai as <- <-. right. simpl. rewrite app_nil_r.
        by apply (step_drawCard gs ts false).
    + left. injection Hai as <- <-. simpl. by rewrite app_nil_r.
  - right. constructor.
Qed.

(** So the states of a played game are reachable states. *)
Lemma played_reachable a : played a → reachable a.
Proof.
  induction 1 as [rnd d gs Hinit|a a' _ IH Hev].
  - by eapply reachable_init.
  - destruct (event_step _ _ Hev) as [->|Hstep]; [done|].
    by eapply reachable_step.
Qed.

End system.

(** ** The running example is a played game *)

Section example.

Lemma dealt_init : initGame rndExample EASY = Some dealt.
Proof. vm_compute. reflexivity. Qed.

Lemma dealt_played : played (mkApp dealt []).
Proof. apply (played_init rndExample EASY), dealt_init. Qed.

Lemma afterFour_played : played (mkApp afterFour []).
Proof.
  apply (played_event (mkApp dealt [])); [apply dealt_played|].
  apply (event_card dealt [] (newCard HEARTS FOUR) afterFour None).
  - apply (bool_decide_unpack _). vm_compute. exact I.
  - vm_compute. reflexivity.
Qed.

Lemma afterEight_played : played (mkApp afterEight [HEARTS]).
Proof.
  apply (played_event (mkApp afterFour [])); [apply afterFour_played|].
  apply (event_ai afterFour [] 0 afterEight (Some HEARTS)).
  vm_compute. reflexivity.
Qed.

Lemma afterFour_reachable : reachable (mkApp afterFour []).
Proof. apply played_reachable, afterFour_played. Qed.

Lemma afterEight_reachable : reachable (mkApp afterEight [HEARTS]).
Proof. apply played_reachable, afterEight_played. Qed.

Lemma drawCards_reachable n gs ts isPlayer gs' :
  reachable (mkApp gs ts) → drawCards n gs isPlayer = Some gs' →
  reachable (mkApp gs' ts).
Proof.
  revert gs. induction n as [|n IH]; intros gs Hr Hd; simpl in Hd.
  - by injection Hd as <-.
  - destruct (drawCard gs isPlayer) as [gs1|] eqn:H1; [|done].
    apply (IH gs1); [|done].
    apply (reachable_step (mkApp gs ts)); [done|].
    by apply (step_drawCard gs ts isPlayer).
Qed.

Lemma drained_reachable : reachable (mkApp drained []).
Proof.
  apply (drawCards_reachable 35 dealt [] true).
  - apply played_reachable, dealt_played.
  - vm_compute. reflexivity.
Qed.

End example.

(** ** The computer's choice of suit *)

Section wild.

Implicit Types (hand : list Card) (s : Suit).

Lemma countSuit_cons s c hand :
  countSuit s (c :: hand)
  = (if bool_decide (s = suit c) then 1 else 0) + countSuit s hand.
Proof.
  unfold countSuit. case_bool_decide as Hs.
  - by rewrite filter_cons_True.
  - rewrite filter_cons_False; [done|]. intros Heq. by apply Hs.
Qed.

(** The record of counts holds, for each suit, the number of cards of
    that suit in the hand. *)
Lemma suitCounts_countSuit hand s :
  suitCounts hand s = Z.of_nat (countSuit s hand).
Proof.
  unfold suitCounts.
  assert (∀ counts : Suit → Z,
    fold_left
      (λ (counts : Suit → Z) c s,
         if bool_decide (s = suit c) then (counts s + 1)%Z else counts s)
      hand counts s = (counts s + Z.of_nat (countSuit s hand))%Z) as Hfold.
  { induction hand as [|c hand IH]; intros counts; simpl.
    - unfold countSuit. simpl. lia.
    - rewrite IH, countSuit_cons. case_bool_decide; lia. }
  rewrite Hfold. lia.
Qed.

Lemma suitIndex_SUITS s : SUITS !! suitIndex s = Some s.
Proof. by destruct s. Qed.

(** The loop over [SUITS] returns the first suit of greatest count. *)
Lemma bestSuitFrom_first_max (counts : Suit → Z) s :
  (∀ s', 0 ≤ counts s')%Z →
  (counts s ≤ counts (bestSuitFrom counts).1)%Z ∧
  (suitIndex s < suitIndex (bestSuitFrom counts).1 →
   (counts s < counts (bestSuitFrom counts).1)%Z).
Proof.
  intros Hpos.
  pose proof (Hpos HEARTS). pose proof (Hpos DIAMONDS).
  pose proof (Hpos CLUBS). pose proof (Hpos SPADES).
  unfold bestSuitFrom, SUITS. cbn [fold_left].
  repeat (case_bool_decide; cbn [fst snd] in * );
    destruct s; cbn [suitIndex]; split; lia.
Qed.

End wild.

(** ** Properties of the rule engine *)

(** C1. In every state reached from a fresh deal by [playCard] (on a card of
    the actor's hand), [drawCard], [selectWildSuit] and [surrender], and by
    the wild-suit update that [playCard] schedules, the deck, the two hands
    and the discard pile hold exactly 52 cards together. *)
Theorem card_count_invariant a :
  reachable a →
  length (deck (game a)) + length (playerHand (game a))
    + length (aiHand (game a)) + length (discardPile (game a)) = 52.
Proof. intros Hr. by apply conserved_length, reachable_conserved. Qed.

(** C1 at the state where the computer has just played its eight. *)
Lemma card_count_invariant_witness :
  reachable (mkApp afterEight [HEARTS]) ∧
  length (deck afterEight) + length (playerHand afterEight)
    + length (aiHand afterEight) + length (discardPile afterEight) = 52.
Proof.
  split.
  - exact afterEight_reachable.
  - exact (card_count_invariant (mkApp afterEight [HEARTS]) afterEight_reachable).
Defined.

(** C2. [checkPlayable] accepts every EIGHT, whatever the top card and the
    active suit; any other card it accepts if and only if its suit is the
    active suit or its rank is the rank of the top card. *)
Theorem checkPlayable_rule gs card topCard :
  last (discardPile gs) = Some topCard →
  (rank card = EIGHT → checkPlayable gs card = Some true) ∧
  (rank card ≠ EIGHT →
   ∃ b, checkPlayable gs card = Some b ∧
        (b = true ↔ Some (suit card) = activeSuit gs ∨ rank card = rank topCard)).
Proof.
  intros Htop. split.
  - apply checkPlayable_eight.
  - intros Hrank. eexists. split; [by apply checkPlayable_legal|].
    rewrite bool_decide_eq_true. unfold legal. tauto.
Qed.

(** C2 on the fresh deal: 8♥ and 4♥ against 4♦ with DIAMONDS active. *)
Lemma checkPlayable_rule_witness :
  checkPlayable dealt (newCard HEARTS EIGHT) = Some true ∧
  ∃ b, checkPlayable dealt (newCard HEARTS FOUR) = Some b ∧
       (b = true ↔ Some HEARTS = activeSuit dealt ∨ FOUR = FOUR).
Proof.
  split.
  - apply (proj1 (checkPlayable_rule dealt (newCard HEARTS EIGHT)
                    (newCard DIAMONDS FOUR) eq_refl)).
    reflexivity.
  - apply (proj2 (checkPlayable_rule dealt (newCard HEARTS FOUR)
                    (newCard DIAMONDS FOUR) eq_refl)).
    simpl. discriminate.
Defined.

(** C3. In the PLAYING phase, when an actor whose hand holds two or more
    cards (with distinct ids, as in every game) plays a card that is not an
    EIGHT, the active suit becomes the suit of that card, the turn goes to
    the other actor and the phase stays PLAYING. *)
Theorem playCard_ordinary gs card isPlayer :
  status gs = PLAYING →
  rank card ≠ EIGHT →
  NoDup (card_id <$> handOf gs isPlayer) →
  1 < length (handOf gs isPlayer) →
  activeSuit (playCard gs card isPlayer).1 = Some (suit card) ∧
  currentTurn (playCard gs card isPlayer).1 = otherOf isPlayer ∧
  status (playCard gs card isPlayer).1 = PLAYING.
Proof.
  intros Hst Hrank Hnd Hlen.
  pose proof (filter_id_nonempty _ card Hnd Hlen) as Hne.
  unfold playCard.
  rewrite (bool_decide_eq_false_2 (rank card = EIGHT)) by done.
  case_bool_decide as Hzero.
  - apply nil_length_inv in Hzero. by destruct isPlayer.
  - by destruct isPlayer.
Qed.

(** C3 on the fresh deal: the player plays 4♥. *)
Lemma playCard_ordinary_witness :
  activeSuit (playCard dealt (newCard HEARTS FOUR) true).1 = Some HEARTS ∧
  currentTurn (playCard dealt (newCard HEARTS FOUR) true).1 = AI ∧
  status (playCard dealt (newCard HEARTS FOUR) true).1 = PLAYING.
Proof.
  apply (playCard_ordinary dealt (newCard HEARTS FOUR) true).
  - reflexivity.
  - simpl. discriminate.
  - apply (bool_decide_unpack _). vm_compute. exact I.
  - simpl. lia.
Defined.

(** C4. When an actor plays the only card of its hand, the game is over
    and that actor has won; the card has moved from the hand to the discard
    pile, and the turn and the active suit are as they were. *)
Theorem playCard_last_card gs card isPlayer :
  handOf gs isPlayer = [card] →
  status (playCard gs card isPlayer).1 = GAME_OVER ∧
  winner (playCard gs card isPlayer).1 = Some (actorOf isPlayer) ∧
  handOf (playCard gs card isPlayer).1 isPlayer = [] ∧
  discardPile (playCard gs card isPlayer).1 = discardPile gs ++ [card] ∧
  currentTurn (playCard gs card isPlayer).1 = currentTurn gs ∧
  activeSuit (playCard gs card isPlayer).1 = activeSuit gs ∧
  handOf (playCard gs card isPlayer).1 (negb isPlayer)
    = handOf gs (negb isPlayer) ∧
  deck (playCard gs card isPlayer).1 = deck gs ∧
  (playCard gs card isPlayer).2 = None.
Proof.
  intros Hhand. unfold playCard.
  destruct isPlayer; simpl in Hhand; rewrite Hhand;
    rewrite filter_cons_False, filter_nil by (intros H; by apply H);
    simpl; done.
Qed.

(** C4 where the computer plays its last card, 5♠ on K♠. *)
Lemma playCard_last_card_witness :
  status (playCard lastCard (newCard SPADES FIVE) false).1 = GAME_OVER ∧
  winner (playCard lastCard (newCard SPADES FIVE) false).1 = Some AI ∧
  aiHand (playCard lastCard (newCard SPADES FIVE) false).1 = [].
Proof.
  pose proof (playCard_last_card lastCard (newCard SPADES FIVE) false eq_refl)
    as (Hst & Hw & Hh & _).
  split_and!; [exact Hst|exact Hw|exact Hh].
Defined.

(** C5. On an empty deck [drawCard] draws nothing: the deck, both hands and
    the discard pile are as they were, and the turn goes to the other actor
    whatever it was; the call returns a state and does not throw. *)
Theorem drawCard_empty_deck gs isPlayer :
  deck gs = [] →
  ∃ gs', drawCard gs isPlayer = Some gs' ∧
    deck gs' = [] ∧
    playerHand gs' = playerHand gs ∧
    aiHand gs' = aiHand gs ∧
    discardPile gs' = discardPile gs ∧
    currentTurn gs' = otherOf isPlayer ∧
    status gs' = status gs ∧
    winner gs' = winner gs ∧
    activeSuit gs' = activeSuit gs ∧
    difficulty gs' = difficulty gs.
Proof.
  intros Hdeck. unfold drawCard. rewrite Hdeck. simpl.
  eexists. split; [reflexivity|]. by destruct isPlayer.
Qed.

(** C5 once the player has drawn the whole deck of the example. *)
Lemma drawCard_empty_deck_witness :
  reachable (mkApp drained []) ∧
  ∃ gs', drawCard drained true = Some gs' ∧
    length (playerHand gs') = 43 ∧ currentTurn gs' = AI.
Proof.
  split; [exact drained_reachable|].
  destruct (drawCard_empty_deck drained true eq_refl)
    as (gs' & Hdraw & _ & Hp & _ & _ & Ht & _).
  exists gs'. split_and!; [exact Hdraw|by rewrite Hp|exact Ht].
Defined.

(** C6. On a deck that is not empty [drawCard] takes the card at the end of
    the deck and puts it in the actor's hand; the turn stays with the actor
    if and only if that card is playable on the top card and the active
    suit, and goes to the other actor otherwise. *)
Theorem drawCard_draws gs isPlayer newDeck drawnCard topCard :
  deck gs = newDeck ++ [drawnCard] →
  last (discardPile gs) = Some topCard →
  ∃ gs', drawCard gs isPlayer = Some gs' ∧
    deck gs' = newDeck ∧
    handOf gs' isPlayer = handOf gs isPlayer ++ [drawnCard] ∧
    handOf gs' (negb isPlayer) = handOf gs (negb isPlayer) ∧
    discardPile gs' = discardPile gs ∧
    (currentTurn gs' = actorOf isPlayer
       ↔ legal drawnCard topCard (activeSuit gs)) ∧
    (currentTurn gs' = otherOf isPlayer
       ↔ ¬ legal drawnCard topCard (activeSuit gs)).
Proof.
  intros Hdeck Htop. unfold drawCard.
  rewrite bool_decide_eq_false_2
    by (rewrite Hdeck, length_app; simpl; lia).
  rewrite Hdeck, pop_snoc, (checkPlayable_legal _ _ _ Htop).
  destruct isPlayer; (eexists; split; [reflexivity|]); simpl;
    split_and!; try done; case_bool_decide; split; try done; tauto.
Qed.

(** C6 on the fresh deal: the player draws K♠, which 4♦ does not take. *)
Lemma drawCard_draws_witness :
  ∃ gs', drawCard dealt true = Some gs' ∧
    length (deck gs') = 34 ∧
    playerHand gs' = playerHand dealt ++ [newCard SPADES KING] ∧
    currentTurn gs' = AI.
Proof.
  destruct (drawCard_draws dealt true (take 34 (deck dealt))
              (newCard SPADES KING) (newCard DIAMONDS FOUR) eq_refl eq_refl)
    as (gs' & Hdraw & Hd & Hh & _ & _ & _ & Ht).
  exists gs'. split_and!; [exact Hdraw|by rewrite Hd|exact Hh|].
  apply Ht. vm_compute. intros [H|[H|H]]; discriminate H.
Defined.

(** C7 (as stated, refuted). [playCard] has no legality check: on the fresh
    deal K♠ is neither in the player's hand nor playable on 4♦, and yet
    [playCard] puts it on the discard pile and passes the turn. *)
Lemma playCard_takes_illegal_card :
  (newCard SPADES KING ∉ playerHand dealt) ∧
  checkPlayable dealt (newCard SPADES KING) = Some false ∧
  (playCard dealt (newCard SPADES KING) true).1 ≠ dealt ∧
  discardPile (playCard dealt (newCard SPADES KING) true).1
    = [newCard DIAMONDS FOUR; newCard SPADES KING] ∧
  currentTurn (playCard dealt (newCard SPADES KING) true).1 = AI.
Proof.
  split_and!.
  - apply (bool_decide_unpack _). vm_compute. exact I.
  - vm_compute. reflexivity.
  - apply (bool_decide_unpack _). vm_compute. exact I.
  - vm_compute. reflexivity.
  - vm_compute. reflexivity.
Qed.

(** C7 (amended). Illegal moves are kept out by the callers of [playCard],
    not by [playCard], and no failure is reported: [playCard] puts whatever
    card it is given on the discard pile; a click on a card is ignored, the
    game state staying as it is, unless it is the player's turn, the phase
    is PLAYING and the card is playable; and the computer's move changes
    nothing, or draws, or plays a card of its own hand that is playable. *)
Theorem illegal_moves_kept_out_by_callers :
  (∀ gs card isPlayer,
     discardPile (playCard gs card isPlayer).1 = discardPile gs ++ [card]) ∧
  (∀ gs card,
     currentTurn gs ≠ PLAYER ∨ status gs ≠ PLAYING
       ∨ checkPlayable gs card = Some false →
     onCardClick gs card = Some (gs, None)) ∧
  (∀ gs pick gs' t,
     aiTurn gs pick = Some (gs', t) →
     (gs', t) = (gs, None)
     ∨ (drawCard gs false = Some gs' ∧ t = None)
     ∨ ∃ card, card ∈ aiHand gs ∧ checkPlayable gs card = Some true
               ∧ playCard gs card false = (gs', t)).
Proof.
  split_and!.
  - intros gs card isPlayer. unfold playCard. by repeat case_bool_decide.
  - intros gs card Hill. unfold onCardClick.
    repeat case_bool_decide; try done.
    destruct Hill as [?|[?|Hf]]; [done|done|by rewrite Hf].
  - intros gs pick gs' t Hai. unfold aiTurn in Hai. case_bool_decide.
    + destruct (filterPlayable gs (aiHand gs)) as [playableCards|] eqn:Hf;
        [|done].
      case_bool_decide.
      * destruct (cardToPlay gs pick playableCards) as [c|] eqn:Hc; [|done].
        apply (inj Some) in Hai. right. right. exists c.
        apply cardToPlay_elem in Hc.
        by destruct (filterPlayable_Some _ _ _ _ Hf Hc).
      * destruct (drawCard gs false) as [gs1|]; [|done].
        injection Hai as <- <-. right. by left.
    + left. by injection Hai as <- <-.
Qed.

(** C7 (amended) on the fresh deal: a click on A♥, which 4♦ does not take,
    changes nothing; after the player's 4♥ the computer plays its 8♠. *)
Lemma illegal_moves_kept_out_by_callers_witness :
  onCardClick dealt (newCard HEARTS ACE) = Some (dealt, None) ∧
  ((afterEight, Some HEARTS) = (afterFour, None)
   ∨ (drawCard afterFour false = Some afterEight ∧ Some HEARTS = None)
   ∨ ∃ card, card ∈ aiHand afterFour ∧ checkPlayable afterFour card = Some true
             ∧ playCard afterFour card false = (afterEight, Some HEARTS)).
Proof.
  destruct illegal_moves_kept_out_by_callers as (_ & Hclick & Hai).
  split.
  - apply Hclick. right. right. vm_compute. reflexivity.
  - apply (Hai afterFour 0). vm_compute. reflexivity.
Defined.

(** C8 (as stated, refuted). [selectWildSuit] has no phase check: on the
    fresh deal, in the PLAYING phase, it changes the active suit and passes
    the turn; after a surrender it takes the game out of GAME_OVER. *)
Lemma selectWildSuit_in_any_phase :
  status dealt = PLAYING ∧
  selectWildSuit dealt SPADES ≠ dealt ∧
  activeSuit (selectWildSuit dealt SPADES) = Some SPADES ∧
  currentTurn (selectWildSuit dealt SPADES) = AI ∧
  status (surrender dealt) = GAME_OVER ∧
  status (selectWildSuit (surrender dealt) SPADES) = PLAYING.
Proof.
  split_and!; try reflexivity.
  apply (bool_decide_unpack _). vm_compute. exact I.
Qed.

(** C8 (amended). [selectWildSuit] is offered only in the WILD_SELECTION
    phase: the suit buttons exist only then, so that in any other phase a
    choice of suit leaves the state as it is. The function itself does not
    look at the phase: it sets the active suit to the suit chosen, the
    phase to PLAYING and the turn to the computer, and nothing else. *)
Theorem selectWildSuit_effect :
  (∀ gs s,
     activeSuit (selectWildSuit gs s) = Some s ∧
     status (selectWildSuit gs s) = PLAYING ∧
     currentTurn (selectWildSuit gs s) = AI ∧
     deck (selectWildSuit gs s) = deck gs ∧
     playerHand (selectWildSuit gs s) = playerHand gs ∧
     aiHand (selectWildSuit gs s) = aiHand gs ∧
     discardPile (selectWildSuit gs s) = discardPile gs ∧
     winner (selectWildSuit gs s) = winner gs ∧
     difficulty (selectWildSuit gs s) = difficulty gs) ∧
  (∀ gs s, status gs = WILD_SELECTION →
     onSuitClick gs s = selectWildSuit gs s) ∧
  (∀ gs s, status gs ≠ WILD_SELECTION → onSuitClick gs s = gs).
Proof.
  split_and!.
  - done.
  - intros gs s Hst. unfold onSuitClick. by rewrite bool_decide_eq_true_2.
  - intros gs s Hst. unfold onSuitClick. by rewrite bool_decide_eq_false_2.
Qed.

(** C8 (amended) on the example: no suit can be chosen on the fresh deal;
    after the player's own eight the choice of SPADES is taken. *)
Lemma selectWildSuit_effect_witness :
  onSuitClick dealt SPADES = dealt ∧
  onSuitClick (playCard dealt (newCard HEARTS EIGHT) true).1 SPADES
  = selectWildSuit (playCard dealt (newCard HEARTS EIGHT) true).1 SPADES.
Proof.
  destruct selectWildSuit_effect as (_ & Hin & Hout).
  split.
  - apply Hout. vm_compute. discriminate.
  - apply Hin. vm_compute. reflexivity.
Defined.

(** C9 (as stated, refuted). After the player's 4♥ the computer plays its
    eight: the game is in the PLAYING phase and the active suit is null,
    until the update scheduled by [playCard] sets it to HEARTS. *)
Lemma activeSuit_null_after_computer_eight :
  played (mkApp afterEight [HEARTS]) ∧
  reachable (mkApp afterEight [HEARTS]) ∧
  status afterEight = PLAYING ∧
  status afterEight ≠ START ∧
  activeSuit afterEight = None.
Proof.
  split_and!.
  - exact afterEight_played.
  - exact afterEight_reachable.
  - reflexivity.
  - discriminate.
  - reflexivity.
Qed.

(** C9 (amended). Before a game is started the active suit is null. In
    every state reached after the deal the active suit is one of the four
    suits, except while a wild-suit update scheduled by the computer's
    eight has not run yet. *)
Theorem activeSuit_valid_unless_pending :
  (status initialState = START ∧ activeSuit initialState = None) ∧
  (∀ a, reachable a → timers a = [] →
     status (game a) ≠ START ∧ ∃ s, activeSuit (game a) = Some s ∧ s ∈ SUITS).
Proof.
  split; [done|]. intros a Hr Hts. split.
  - clear Hts. induction Hr as [rnd d gs Hinit|a a' _ IH Hstep].
    + apply initGame_Some in Hinit as (_ & _ & _ & _ & _ & Hst & _).
      simpl. by rewrite Hst.
    + destruct Hstep as
        [gs ts card isPlayer gs' t Hin Hplay|gs ts isPlayer gs' Hdraw| | |];
        simpl in *; try done.
      * unfold playCard in Hplay.
        repeat case_bool_decide; injection Hplay as <- <-; simpl; try done;
          by destruct isPlayer.
      * unfold drawCard in Hdraw.
        case_bool_decide; [by injection Hdraw as <-|].
        destruct (pop _) as [[??]|]; [|done].
        destruct (checkPlayable _ _); [|done].
        by destruct isPlayer; injection Hdraw as <-.
  - destruct (reachable_activeSuit a Hr Hts) as [s Hs].
    exists s. split; [done|].
    apply (bool_decide_unpack _). by destruct s.
Qed.

(** C9 (amended) after the player's 4♥, when nothing is scheduled. *)
Lemma activeSuit_valid_unless_pending_witness :
  status afterFour ≠ START ∧ ∃ s, activeSuit afterFour = Some s ∧ s ∈ SUITS.
Proof.
  exact (proj2 activeSuit_valid_unless_pending (mkApp afterFour [])
           afterFour_reachable eq_refl).
Defined.

(** C10. When the computer plays an EIGHT and keeps cards, the suit it
    declares is a suit of greatest count among the cards left in its hand,
    and the first such suit in the order HEARTS, DIAMONDS, CLUBS, SPADES;
    for the cards 2♥, 2♦, 9♦ it is DIAMONDS. *)
Theorem wild_suit_choice :
  (∀ hand s, countSuit s hand ≤ countSuit (bestSuit hand) hand) ∧
  (∀ hand s, suitIndex s < suitIndex (bestSuit hand) →
     countSuit s hand < countSuit (bestSuit hand) hand) ∧
  bestSuit [newCard HEARTS TWO; newCard DIAMONDS TWO; newCard DIAMONDS NINE]
    = DIAMONDS ∧
  (∀ gs card,
     rank card = EIGHT →
     filter (λ c, card_id c ≠ card_id card) (aiHand gs) ≠ [] →
     (playCard gs card false).2
       = Some (bestSuit (filter (λ c, card_id c ≠ card_id card) (aiHand gs))) ∧
     ∀ s prev, (playCard gs card false).2 = Some s →
       activeSuit (wildTimeout s prev) = Some s).
Proof.
  assert (∀ hand s', (0 ≤ suitCounts hand s')%Z) as Hpos
    by (intros; rewrite suitCounts_countSuit; lia).
  split_and!.
  - intros hand s.
    pose proof (proj1 (bestSuitFrom_first_max (suitCounts hand) s (Hpos hand)))
      as Hmax.
    fold (bestSuit hand) in Hmax. rewrite !suitCounts_countSuit in Hmax. lia.
  - intros hand s Hlt.
    pose proof (proj2 (bestSuitFrom_first_max (suitCounts hand) s (Hpos hand)))
      as Hmax.
    fold (bestSuit hand) in Hmax. rewrite !suitCounts_countSuit in Hmax.
    specialize (Hmax Hlt). lia.
  - reflexivity.
  - intros gs card Hrank Hne. split; [|done].
    unfold playCard.
    rewrite bool_decide_eq_false_2
      by (intros Hz; by apply nil_length_inv in Hz).
    by rewrite bool_decide_eq_true_2.
Qed.

(** C10 on the example: with 10♥ J♥ Q♥ K♥ A♦ 2♦ 3♦ left the computer
    declares HEARTS, and with 2♥, 2♦, 9♦ HEARTS has fewer cards than
    DIAMONDS. *)
Lemma wild_suit_choice_witness :
  countSuit HEARTS
    [newCard HEARTS TWO; newCard DIAMONDS TWO; newCard DIAMONDS NINE]
  < countSuit
      (bestSuit [newCard HEARTS TWO; newCard DIAMONDS TWO; newCard DIAMONDS NINE])
      [newCard HEARTS TWO; newCard DIAMONDS TWO; newCard DIAMONDS NINE] ∧
  (playCard afterFour (newCard SPADES EIGHT) false).2
  = Some (bestSuit (filter (λ c, card_id c ≠ card_id (newCard SPADES EIGHT))
                      (aiHand afterFour))).
Proof.
  destruct wild_suit_choice as (_ & Hfirst & _ & Hplay).
  split.
  - apply Hfirst. vm_compute. lia.
  - apply (Hplay afterFour (newCard SPADES EIGHT)).
    + reflexivity.
    + vm_compute. discriminate.
Defined.

(** ** The shuffle, draw by draw *)

Section fisher_yates.

Implicit Types (d p : list Card) (rnd : nat → nat).

Lemma swap_length i j d : length (swap i j d) = length d.
Proof. by rewrite swap_Permutation. Qed.

Lemma swap_lookup_l i j d :
  i < length d → j < length d → swap i j d !! i = d !! j.
Proof.
  intros [a Ha]%lookup_lt_is_Some_2 [b Hb]%lookup_lt_is_Some_2.
  unfold swap. rewrite Ha, Hb.
  destruct (decide (i = j)) as [->|Hij].
  - rewrite list_insert_insert_eq, list_lookup_insert_eq; [congruence|].
    by eapply lookup_lt_Some.
  - rewrite list_lookup_insert_ne by done.
    rewrite list_lookup_insert_eq; [done|]. by eapply lookup_lt_Some.
Qed.

Lemma swap_lookup_other i j k d :
  k ≠ i → k ≠ j → swap i j d !! k = d !! k.
Proof.
  intros Hi Hj. unfold swap.
  destruct (d !! j) as [b|]; [|done]. destruct (d !! i) as [a|]; [|done].
  by rewrite !list_lookup_insert_ne.
Qed.

Lemma take_swap n i j d :
  i < n → j < n → take n (swap i j d) = swap i j (take n d).
Proof.
  intros Hi Hj. unfold swap. rewrite !lookup_take_lt by done.
  destruct (d !! j) as [b|]; [|done]. destruct (d !! i) as [a|]; [|done].
  by rewrite !take_insert_lt.
Qed.

Lemma shuffleFrom_length rnd i d : length (shuffleFrom rnd i d) = length d.
Proof. by rewrite shuffleFrom_Permutation. Qed.

(** The loop at index [i] leaves the cells above [i] alone. *)
Lemma shuffleFrom_lookup_gt rnd i k d :
  i < k → shuffleFrom rnd i d !! k = d !! k.
Proof.
  revert d. induction i as [|i IH]; intros d Hk; cbn [shuffleFrom]; [done|].
  rewrite IH by lia. apply swap_lookup_other; [lia|].
  pose proof (Nat.mod_upper_bound (rnd (S i)) (S i + 1)). lia.
Qed.

(** Only the draws reduced to their range matter. *)
Lemma shuffleFrom_ext rnd rnd' i d :
  (∀ k, 1 ≤ k ≤ i → rnd k mod (k + 1) = rnd' k mod (k + 1)) →
  shuffleFrom rnd i d = shuffleFrom rnd' i d.
Proof.
  revert d. induction i as [|i IH]; intros d Heq; cbn [shuffleFrom]; [done|].
  rewrite (Heq (S i)) by lia. apply IH. intros k Hk. apply Heq. lia.
Qed.

Lemma shuffleFrom_inj rnd rnd' i d :
  NoDup d → i < length d →
  shuffleFrom rnd i d = shuffleFrom rnd' i d →
  ∀ k, 1 ≤ k ≤ i → rnd k mod (k + 1) = rnd' k mod (k + 1).
Proof.
  revert d. induction i as [|i IH]; intros d Hnd Hlen Heq k Hk; [lia|].
  cbn [shuffleFrom] in Heq.
  pose proof (Nat.mod_upper_bound (rnd (S i)) (S i + 1)) as Hj.
  pose proof (Nat.mod_upper_bound (rnd' (S i)) (S i + 1)) as Hj'.
  set (j := rnd (S i) mod (S i + 1)) in *.
  set (j' := rnd' (S i) mod (S i + 1)) in *.
  assert (j = j') as Hjj.
  { pose proof (f_equal (λ l, l !! S i) Heq) as Hat. simpl in Hat.
    rewrite !shuffleFrom_lookup_gt, !swap_lookup_l in Hat by lia.
    destruct (lookup_lt_is_Some_2 d j) as [x Hx]; [lia|].
    rewrite Hx in Hat. by eapply NoDup_lookup. }
  destruct (decide (k = S i)) as [->|Hne]; [done|].
  rewrite <- Hjj in Heq.
  apply (IH (swap (S i) j d)); [|by rewrite swap_length; lia|done|lia].
  by rewrite swap_Permutation.
Qed.

Lemma shuffleFrom_surj i d p :
  length d = length p → i < length d →
  (∀ k, i < k → d !! k = p !! k) →
  take (S i) d ≡ₚ take (S i) p →
  ∃ rnd, shuffleFrom rnd i d = p.
Proof.
  revert d. induction i as [|i IH]; intros d Hlen Hi Habove Hperm.
  - exists (λ k, k). cbn [shuffleFrom]. apply list_eq. intros [|k]; [|apply Habove; lia].
    destruct d as [|x d], p as [|y p]; simpl in *; try lia.
    by apply Permutation_singleton_l in Hperm as [= ->].
  - destruct (lookup_lt_is_Some_2 p (S i)) as [x Hx]; [lia|].
    assert (∃ j, d !! j = Some x ∧ j < S (S i)) as (j & Hj & Hjlt).
    { apply elem_of_take. rewrite Hperm. apply elem_of_take. eauto. }
    set (d1 := swap (S i) j d).
    assert (d1 !! S i = Some x) as Hd1.
    { unfold d1. rewrite swap_lookup_l; [done|lia|]. by eapply lookup_lt_Some. }
    destruct (IH d1) as [rnd Hrnd].
    + unfold d1. by rewrite swap_length.
    + unfold d1. rewrite swap_length. lia.
    + intros k Hk. destruct (decide (k = S i)) as [->|Hne]; [congruence|].
      unfold d1. rewrite swap_lookup_other by lia. apply Habove. lia.
    + apply (Permutation_app_inv_r [x]).
      rewrite <- (take_S_r d1 (S i) x), <- (take_S_r p (S i) x) by done.
      unfold d1. rewrite take_swap by lia. by rewrite swap_Permutation.
    + exists (λ k, if decide (k = S i) then j else rnd k). cbn [shuffleFrom].
      rewrite decide_True by done.
      rewrite (Nat.mod_small j) by lia. fold d1.
      rewrite <- Hrnd. apply shuffleFrom_ext. intros k Hk.
      by rewrite decide_False by lia.
Qed.

End fisher_yates.

(** ** The computer's move, tier by tier *)

Section tiers.

Implicit Types (gs : GameState) (hand playableCards : list Card).

(** With a top card on the pile, the playable cards are the legal cards of
    the hand, in the order of the hand. *)
Lemma filterPlayable_filter gs hand topCard :
  last (discardPile gs) = Some topCard →
  filterPlayable gs hand
  = Some (filter (λ c, legal c topCard (activeSuit gs)) hand).
Proof.
  intros Htop. induction hand as [|x hand IH]; [done|].
  cbn [filterPlayable]. rewrite (checkPlayable_legal _ _ _ Htop), IH.
  case_bool_decide.
  - by rewrite filter_cons_True.
  - by rewrite filter_cons_False.
Qed.

Lemma find_nonEight_None playableCards :
  find (λ c, bool_decide (rank c ≠ EIGHT)) playableCards = None →
  ∀ c, c ∈ playableCards → rank c = EIGHT.
Proof.
  intros Hfind c Hin%list_elem_of_In.
  pose proof (find_none _ _ Hfind c Hin) as Hc. simpl in Hc.
  apply bool_decide_eq_false in Hc. by destruct (decide (rank c = EIGHT)).
Qed.

Lemma find_nonEight_first (l1 l2 : list Card) c :
  (∀ x, x ∈ l1 → rank x = EIGHT) → rank c ≠ EIGHT →
  find (λ c, bool_decide (rank c ≠ EIGHT)) (l1 ++ c :: l2) = Some c.
Proof.
  intros Hl1 Hc. induction l1 as [|x l1 IH]; simpl.
  - by rewrite bool_decide_eq_true_2.
  - rewrite bool_decide_eq_false_2.
    + apply IH. intros y Hy. apply Hl1. by apply list_elem_of_further.
    + intros Hx. apply Hx, Hl1, list_elem_of_here.
Qed.

(** The reduction keeps the first card of greatest suit count. *)
Lemma reduceBySuitCount_first_max counts (nonEights : list Card) c :
  reduceBySuitCount counts nonEights = Some c →
  ∃ i, nonEights !! i = Some c ∧
    (∀ k c', nonEights !! k = Some c' →
       (counts (suit c') ≤ counts (suit c))%Z) ∧
    (∀ k c', k < i → nonEights !! k = Some c' →
       (counts (suit c') < counts (suit c))%Z).
Proof.
  destruct nonEights as [|x cs]; [done|]. cbn [reduceBySuitCount].
  intros [= <-]. induction cs as [|y cs IH] using rev_ind.
  - cbn [fold_left]. exists 0. split_and!; [done| |intros; lia].
    intros [|k] c' Hk; simpl in Hk; [|done]. injection Hk as <-. lia.
  - rewrite fold_left_app. cbn [fold_left].
    change (x :: cs ++ [y]) with ((x :: cs) ++ [y]).
    destruct IH as (i & Hi & Hmax & Hfirst).
    set (r := fold_left _ cs x) in *.
    pose proof (lookup_lt_Some _ _ _ Hi) as Hlt.
    case_bool_decide as Hy.
    + exists (length (x :: cs)). split_and!.
      * by rewrite (lookup_app_r (x :: cs)), Nat.sub_diag.
      * intros k c' Hk.
        destruct (decide (k < length (x :: cs))) as [Hin|Hout].
        -- rewrite (lookup_app_l (x :: cs)) in Hk by done.
           specialize (Hmax _ _ Hk). lia.
        -- rewrite (lookup_app_r (x :: cs)) in Hk by lia.
           destruct (k - length (x :: cs)); [|done].
           injection Hk as <-. lia.
      * intros k c' Hin Hk.
        rewrite (lookup_app_l (x :: cs)) in Hk by done.
        specialize (Hmax _ _ Hk). lia.
    + exists i. split_and!.
      * by rewrite (lookup_app_l (x :: cs)).
      * intros k c' Hk.
        destruct (decide (k < length (x :: cs))) as [Hin|Hout].
        -- rewrite (lookup_app_l (x :: cs)) in Hk by done. by eapply Hmax.
        -- rewrite (lookup_app_r (x :: cs)) in Hk by lia.
           destruct (k - length (x :: cs)); [|done].
           injection Hk as <-. lia.
      * intros k c' Hin Hk.
        rewrite (lookup_app_l (x :: cs)) in Hk by lia. by eapply Hfirst.
Qed.

(** Every tier finds a card among playable cards. *)
Lemma cardToPlay_is_Some gs pick playableCards :
  playableCards ≠ [] → is_Some (cardToPlay gs pick playableCards).
Proof.
  intros Hne. unfold cardToPlay.
  assert (is_Some (head playableCards)) as Hhead by (by apply head_is_Some).
  destruct (difficulty gs).
  - apply lookup_lt_is_Some_2, Nat.mod_upper_bound.
    by destruct playableCards.
  - by destruct (find _ _).
  - case_bool_decide as Hlen; [|done].
    destruct (filter _ playableCards); [simpl in Hlen; lia|by eexists].
Qed.

End tiers.

(** ** What one event does to the phase and the piles *)

Section events.

Implicit Types (gs : GameState) (a : App) (card : Card) (isPlayer : bool).

Lemma playCard_discardPile gs card isPlayer :
  discardPile (playCard gs card isPlayer).1 = discardPile gs ++ [card].
Proof. unfold playCard. by repeat case_bool_decide. Qed.

Lemma playCard_deck gs card isPlayer :
  deck (playCard gs card isPlayer).1 = deck gs.
Proof. unfold playCard. by repeat case_bool_decide. Qed.

Lemma playCard_other_hand gs card isPlayer :
  handOf (playCard gs card isPlayer).1 (negb isPlayer)
  = handOf gs (negb isPlayer).
Proof. unfold playCard. by destruct isPlayer; repeat case_bool_decide. Qed.

Lemma playCard_hand gs card isPlayer :
  handOf (playCard gs card isPlayer).1 isPlayer
  = filter (λ c, card_id c ≠ card_id card) (handOf gs isPlayer).
Proof.
  unfold playCard.
  destruct isPlayer; repeat case_bool_decide; simpl; try done;
    symmetry; by apply nil_length_inv.
Qed.

(** In the PLAYING phase a play ends the game for the actor, or opens the
    player's choice of suit, or leaves the phase and the winner alone. *)
Lemma playCard_phase gs card isPlayer :
  status gs = PLAYING →
  (status (playCard gs card isPlayer).1 = GAME_OVER
   ∧ winner (playCard gs card isPlayer).1 = Some (actorOf isPlayer))
  ∨ (status (playCard gs card isPlayer).1 = WILD_SELECTION
     ∧ winner (playCard gs card isPlayer).1 = winner gs)
  ∨ (status (playCard gs card isPlayer).1 = PLAYING
     ∧ winner (playCard gs card isPlayer).1 = winner gs).
Proof.
  intros Hst. unfold playCard.
  destruct isPlayer; repeat case_bool_decide; simpl; auto.
Qed.

Lemma drawCard_keeps gs isPlayer gs' :
  drawCard gs isPlayer = Some gs' →
  status gs' = status gs ∧ winner gs' = winner gs ∧
  activeSuit gs' = activeSuit gs ∧
  discardPile gs' = discardPile gs ∧
  handOf gs' (negb isPlayer) = handOf gs (negb isPlayer) ∧
  (deck gs' = deck gs ∨ ∃ c, deck gs = deck gs' ++ [c]).
Proof.
  unfold drawCard. case_bool_decide.
  - intros [= <-]. destruct isPlayer; simpl; auto 10.
  - destruct (pop (deck gs)) as [[newDeck c]|] eqn:Hpop; [|done].
    apply pop_Some in Hpop.
    destruct (checkPlayable gs c); [|done].
    destruct isPlayer; intros [= <-]; simpl; split_and!; eauto.
Qed.

(** Every event of the interface is one guarded core operation, or
    changes nothing: a play is a legal move of the actor whose turn it is,
    in the PLAYING phase; a draw is made by the actor whose turn it is. *)
Lemma event_cases a a' :
  event a a' →
  game a' = game a
  ∨ (status (game a) = PLAYING
     ∧ ∃ card isPlayer,
         currentTurn (game a) = actorOf isPlayer
         ∧ card ∈ handOf (game a) isPlayer
         ∧ checkPlayable (game a) card = Some true
         ∧ game a' = (playCard (game a) card isPlayer).1)
  ∨ (∃ isPlayer,
       currentTurn (game a) = actorOf isPlayer
       ∧ (isPlayer = false → status (game a) = PLAYING)
       ∧ drawCard (game a) isPlayer = Some (game a'))
  ∨ (status (game a) = WILD_SELECTION
     ∧ ∃ s, game a' = selectWildSuit (game a) s)
  ∨ (status (game a) = PLAYING ∧ game a' = surrender (game a))
  ∨ (∃ s, game a' = wildTimeout s (game a)).
Proof.
  destruct 1 as [gs ts card gs' t Hin Hclick|gs ts gs' Hclick|gs ts s
                |gs ts Hst|gs ts pick gs' t Hai|gs s ts]; simpl.
  - unfold onCardClick in Hclick.
    repeat case_bool_decide;
      try (injection Hclick as <- <-; by left).
    destruct (checkPlayable gs card) as [[]|] eqn:Hplayable; [| |done].
    + apply (inj Some) in Hclick. right. left. split; [done|].
      exists card, true. by rewrite Hclick.
    + injection Hclick as <- <-. by left.
  - unfold onDeckClick in Hclick. case_bool_decide.
    + right. right. left. by exists true.
    + injection Hclick as <-. by left.
  - unfold onSuitClick. case_bool_decide; [|by left].
    do 3 right. left. split; [done|]. by exists s.
  - do 4 right. left. done.
  - unfold aiTurn in Hai. case_bool_decide as Hg.
    + destruct Hg as [Hturn Hst].
      destruct (filterPlayable gs (aiHand gs)) as [playableCards|] eqn:Hf;
        [|done].
      case_bool_decide.
      * destruct (cardToPlay gs pick playableCards) as [c|] eqn:Hc; [|done].
        apply (inj Some) in Hai. right. left. split; [done|].
        apply cardToPlay_elem in Hc.
        destruct (filterPlayable_Some _ _ _ _ Hf Hc).
        exists c, false. by rewrite Hai.
      * destruct (drawCard gs false) as [gs1|] eqn:Hd; [|done].
        injection Hai as <- <-. right. right. left. by exists false.
    + injection Hai as <- <-. by left.
  - do 5 right. by exists s.
Qed.

Lemma event_phase a a' :
  event a a' →
  status (game a') = status (game a)
  ∨ (status (game a) = PLAYING ∧ status (game a') = WILD_SELECTION)
  ∨ (status (game a) = PLAYING ∧ status (game a') = GAME_OVER)
  ∨ (status (game a) = WILD_SELECTION ∧ status (game a') = PLAYING).
Proof.
  intros [->|[[Hst (card & isPlayer & _ & _ & _ & ->)]|[(isPlayer & _ & _ & Hd)
         |[[Hst [s ->]]|[[Hst ->]|[s ->]]]]]]%event_cases; simpl; auto.
  - destruct (playCard_phase _ card isPlayer Hst)
      as [[-> _]|[[-> _]|[-> _]]]; auto.
  - apply drawCard_keeps in Hd as (-> & _). auto.
Qed.

Lemma event_winner a a' :
  event a a' →
  (status (game a) = GAME_OVER ↔ winner (game a) ≠ None) →
  (status (game a') = GAME_OVER ↔ winner (game a') ≠ None).
Proof.
  intros [->|[[Hst (card & isPlayer & _ & _ & _ & ->)]|[(isPlayer & _ & _ & Hd)
         |[[Hst [s ->]]|[[Hst ->]|[s ->]]]]]]%event_cases Hinv;
    simpl; try done.
  - destruct (playCard_phase _ card isPlayer Hst)
      as [[-> ->]|[[-> ->]|[-> ->]]]; [done| |];
      rewrite Hst in Hinv; split; try done; intros ?%Hinv; done.
  - apply drawCard_keeps in Hd as (-> & -> & _). done.
  - rewrite Hst in Hinv. split; [done|]. by intros ?%Hinv.
Qed.

Lemma played_winner a :
  played a →
  status (game a) ≠ START ∧
  (status (game a) = GAME_OVER ↔ winner (game a) ≠ None).
Proof.
  induction 1 as [rnd d gs Hinit|a a' _ [IHst IHw] Hev].
  - apply initGame_Some in Hinit as (_ & _ & _ & _ & _ & Hst & Hw & _).
    simpl. rewrite Hst, Hw. done.
  - split; [|by eapply event_winner].
    destruct (event_phase _ _ Hev) as [->|[[_ ->]|[[_ ->]|[_ ->]]]]; done.
Qed.

(** Once the game is over an event leaves the phase, the winner, the
    discard pile and the computer's hand as they are. *)
Lemma event_game_over a a' :
  event a a' → status (game a) = GAME_OVER →
  status (game a') = GAME_OVER ∧ winner (game a') = winner (game a) ∧
  discardPile (game a') = discardPile (game a) ∧
  aiHand (game a') = aiHand (game a).
Proof.
  intros [->|[[Hst _]|[(isPlayer & _ & Hai & Hd)|[[Hst _]
         |[[Hst _]|[s ->]]]]]]%event_cases Hover;
    try congruence; try done.
  destruct isPlayer; [|specialize (Hai eq_refl); congruence].
  apply drawCard_keeps in Hd as (-> & -> & _ & -> & Hother & _).
  simpl in Hother. by rewrite Hother.
Qed.

End events.

(** ** More on dealing *)

Section dealing_more.

Lemma skipEights_first rest i k :
  skipEights rest i = Some k →
  ∃ n c, k = i + n ∧ rest !! n = Some c ∧ rank c ≠ EIGHT ∧
         ∀ c', c' ∈ take n rest → rank c' = EIGHT.
Proof.
  revert i. induction rest as [|x rest IH]; intros i Hk; simpl in Hk; [done|].
  case_bool_decide as Hx.
  - destruct (IH _ Hk) as (n & c & -> & Hn & Hc & Hbefore).
    exists (S n), c. split_and!; [lia|done|done|].
    intros c' [->|Hin]%elem_of_cons; [done|by apply Hbefore].
  - injection Hk as <-. exists 0, x. split_and!; [lia|done|done|].
    intros c' Hin. by apply not_elem_of_nil in Hin.
Qed.

Lemma newCard_in_orderedDeck s r : newCard s r ∈ orderedDeck.
Proof. apply (bool_decide_unpack _). by destruct s, r. Qed.

End dealing_more.

(** ** Further properties: the card catalog *)

(** X1. [shuffle] returns the cards it was given, each as many times as
    it was given, whatever the random draws. *)
Theorem shuffle_keeps_cards rnd (d : list Card) :
  shuffle rnd d ≡ₚ d ∧
  length (shuffle rnd d) = length d ∧
  ∀ c, c ∈ shuffle rnd d ↔ c ∈ d.
Proof.
  pose proof (shuffle_Permutation rnd d) as Hperm. split_and!.
  - done.
  - by apply Permutation_length.
  - intros c. by rewrite Hperm.
Qed.

(** X2. Every ordering of the cards is an outcome of [shuffle] for some
    sequence of random draws. *)
Theorem shuffle_reaches_every_order (d p : list Card) :
  d ≡ₚ p → ∃ rnd, shuffle rnd d = p.
Proof.
  intros Hperm. pose proof (Permutation_length Hperm) as Hlen.
  unfold shuffle. destruct d as [|x d].
  - apply Permutation_nil in Hperm as ->. by exists (λ k, k).
  - apply shuffleFrom_surj; [done|simpl; lia|intros k Hk|].
    + rewrite !lookup_ge_None_2; [done|lia|simpl in *; lia].
    + rewrite !take_ge; [done|lia|simpl in *; lia].
Qed.

(** X2 on three cards turned round. *)
Lemma shuffle_reaches_every_order_witness :
  ∃ rnd,
    shuffle rnd [newCard HEARTS ACE; newCard SPADES KING; newCard CLUBS EIGHT]
    = [newCard CLUBS EIGHT; newCard HEARTS ACE; newCard SPADES KING].
Proof.
  apply shuffle_reaches_every_order.
  apply (bool_decide_unpack _). vm_compute. exact I.
Defined.

(** X3. On cards that are all different, two sequences of draws give the
    same order exactly when they agree, index by index, on the draws
    reduced to their range: no two different sequences of choices lead to
    the same order. *)
Theorem shuffle_draws_determine_order rnd rnd' (d : list Card) :
  NoDup d →
  shuffle rnd d = shuffle rnd' d
  ↔ ∀ k, 1 ≤ k < length d → rnd k mod (k + 1) = rnd' k mod (k + 1).
Proof.
  intros Hnd. unfold shuffle. split.
  - intros Heq k Hk. apply (shuffleFrom_inj rnd rnd' (length d - 1) d); try done; lia.
  - intros Hdraws. apply shuffleFrom_ext. intros k Hk. apply Hdraws. lia.
Qed.

(** X3 on the deck: the draws of the example differ from the draws that
    swap nothing at index 46, and so do the orders they give. *)
Lemma shuffle_draws_determine_order_witness :
  NoDup orderedDeck ∧
  shuffle rndExample orderedDeck ≠ shuffle (λ i, i) orderedDeck.
Proof.
  assert (NoDup orderedDeck) as Hnd
    by (apply (NoDup_fmap_1 card_id), orderedDeck_ids_NoDup).
  split; [exact Hnd|]. intros Heq.
  pose proof (proj1 (shuffle_draws_determine_order rndExample (λ i, i)
                       orderedDeck Hnd) Heq 46) as Hdraw.
  rewrite orderedDeck_length in Hdraw.
  specialize (Hdraw ltac:(lia)). vm_compute in Hdraw. discriminate Hdraw.
Defined.

(** X4. Whatever the draws, [createDeck] yields 52 cards: 13 of each
    suit, 4 of each rank, every suit and rank pair once, with ids all
    different. *)
Theorem createDeck_contents rnd :
  length (createDeck rnd) = 52 ∧
  (∀ s, countSuit s (createDeck rnd) = 13) ∧
  (∀ r, length (filter (λ c, rank c = r) (createDeck rnd)) = 4) ∧
  (∀ s r, newCard s r ∈ createDeck rnd) ∧
  NoDup ((λ c, (suit c, rank c)) <$> createDeck rnd) ∧
  NoDup (card_id <$> createDeck rnd).
Proof.
  pose proof (createDeck_Permutation rnd) as Hperm.
  generalize dependent (createDeck rnd). intros full Hperm. split_and!.
  - by rewrite Hperm.
  - intros s. unfold countSuit. rewrite Hperm. by destruct s.
  - intros r. rewrite Hperm. by destruct r.
  - intros s r. rewrite Hperm. apply newCard_in_orderedDeck.
  - rewrite Hperm. apply (bool_decide_unpack _). vm_compute. exact I.
  - rewrite Hperm. apply orderedDeck_ids_NoDup.
Qed.

(** X5. [initGame] never throws. The player gets the first eight cards of
    the shuffled deck and the computer the next eight; the first card of
    the rest that is not an eight is turned up and sets the active suit,
    the eights before it staying in the deck; the player is to move, the
    phase is PLAYING and nobody has won. *)
Theorem initGame_deals rnd d :
  ∃ gs n c,
    initGame rnd d = Some gs ∧
    playerHand gs = take 8 (createDeck rnd) ∧
    aiHand gs = take 8 (drop 8 (createDeck rnd)) ∧
    drop 16 (createDeck rnd) !! n = Some c ∧
    rank c ≠ EIGHT ∧
    (∀ c', c' ∈ take n (drop 16 (createDeck rnd)) → rank c' = EIGHT) ∧
    discardPile gs = [c] ∧
    deck gs = delete n (drop 16 (createDeck rnd)) ∧
    activeSuit gs = Some (suit c) ∧
    currentTurn gs = PLAYER ∧ status gs = PLAYING ∧ winner gs = None ∧
    difficulty gs = d ∧
    length (playerHand gs) = 8 ∧ length (aiHand gs) = 8 ∧
    length (deck gs) = 35.
Proof.
  unfold initGame.
  pose proof (skipEights_full _ (createDeck_Permutation rnd)) as [k Hk].
  pose proof (createDeck_length rnd) as Hlen.
  generalize dependent (createDeck rnd). intros full Hk Hlen.
  rewrite Hk. rewrite drop_drop in *. change (8 + 8) with 16 in *.
  apply skipEights_first in Hk as (n & c & -> & Hn & Hc & Hbefore).
  rewrite Nat.add_0_l, Hn. eexists _, n, c.
  split; [reflexivity|].
  cbn [deck playerHand aiHand discardPile currentTurn status winner
       activeSuit difficulty].
  pose proof (lookup_lt_Some _ _ _ Hn) as Hnlt. rewrite length_drop in Hnlt.
  split_and!; try done.
  - rewrite length_take. lia.
  - rewrite length_take, length_drop. lia.
  - rewrite length_delete by (by eexists). rewrite length_drop. lia.
Qed.

Section example_more.

Lemma dealt_afterFour_event : event (mkApp dealt []) (mkApp afterFour []).
Proof.
  apply (event_card dealt [] (newCard HEARTS FOUR) afterFour None).
  - apply (bool_decide_unpack _). vm_compute. exact I.
  - vm_compute. reflexivity.
Qed.

Lemma dealt_afterFour_step : step (mkApp dealt []) (mkApp afterFour []).
Proof.
  apply (step_playCard dealt [] (newCard HEARTS FOUR) true afterFour None).
  - apply (bool_decide_unpack _). vm_compute. exact I.
  - vm_compute. reflexivity.
Qed.

Lemma gaveUp_drew_event : event (mkApp gaveUp []) (mkApp gaveUpDrew []).
Proof. apply event_deck. vm_compute. reflexivity. Qed.

End example_more.

(** ** Further properties: the rule engine *)

(** X6. In a game no handler throws: [checkPlayable], [drawCard], a click
    on a card or on the deck and the computer's move all return. *)
Theorem handlers_never_throw a card isPlayer pick :
  reachable a →
  is_Some (checkPlayable (game a) card) ∧
  is_Some (drawCard (game a) isPlayer) ∧
  is_Some (onCardClick (game a) card) ∧
  is_Some (onDeckClick (game a)) ∧
  is_Some (aiTurn (game a) pick).
Proof.
  intros Hr.
  pose proof (reachable_discardPile a Hr) as [topCard Htop]%last_is_Some.
  pose proof (λ b, drawCard_total a b Hr) as Hdraw.
  split_and!.
  - rewrite (checkPlayable_legal _ _ _ Htop). by eexists.
  - apply Hdraw.
  - unfold onCardClick. rewrite (checkPlayable_legal _ _ _ Htop).
    repeat case_bool_decide; by eexists.
  - unfold onDeckClick. case_bool_decide; [apply Hdraw|by eexists].
  - unfold aiTurn. rewrite (filterPlayable_filter _ _ _ Htop).
    repeat case_bool_decide; try by eexists.
    + destruct (cardToPlay_is_Some (game a) pick
                  (filter (λ c, legal c topCard (activeSuit (game a)))
                     (aiHand (game a)))) as [c ->]; [|by eexists].
      intros Hnil. rewrite Hnil in *. simpl in *. lia.
    + destruct (Hdraw false) as [gs' ->]. by eexists.
Qed.

(** X6 where the computer has just played its eight. *)
Lemma handlers_never_throw_witness :
  is_Some (drawCard afterEight true) ∧ is_Some (aiTurn afterEight 0).
Proof.
  destruct (handlers_never_throw (mkApp afterEight [HEARTS])
              (newCard HEARTS ACE) true 0 afterEight_reachable)
    as (_ & Hd & _ & _ & Ha).
  split; [exact Hd|exact Ha].
Defined.

(** X7. [checkPlayable] throws exactly when the discard pile is empty and
    the card is neither an eight nor of the active suit. *)
Theorem checkPlayable_throws_iff gs card :
  checkPlayable gs card = None
  ↔ discardPile gs = [] ∧ rank card ≠ EIGHT
    ∧ Some (suit card) ≠ activeSuit gs.
Proof.
  unfold checkPlayable. repeat case_bool_decide.
  - split; [done|]. by intros (_ & ? & _).
  - split; [done|]. by intros (_ & _ & ?).
  - destruct (last (discardPile gs)) as [t|] eqn:Hlast.
    + split; [done|]. intros (Hnil & _). by rewrite Hnil in Hlast.
    + split; [|done]. intros _. split; [|done].
      destruct (discardPile gs) as [|x l] eqn:Hd; [done|].
      assert (is_Some (last (x :: l))) as [? ?] by (by apply last_is_Some).
      congruence.
Qed.

(** X7 before any game: a click on A♥ would throw, on 8♥ it would not. *)
Lemma checkPlayable_throws_iff_witness :
  checkPlayable initialState (newCard HEARTS ACE) = None ∧
  checkPlayable initialState (newCard HEARTS EIGHT) ≠ None.
Proof.
  split.
  - apply checkPlayable_throws_iff. split_and!; [reflexivity| |]; discriminate.
  - intros (_ & Hrank & _)%checkPlayable_throws_iff. by apply Hrank.
Defined.

(** X8. In every reachable state the deck, the hands and the discard pile
    hold the cards of the deck, every card once: no card is lost, and no
    card is in two places. *)
Theorem cards_conserved a :
  reachable a →
  zones (game a) ≡ₚ orderedDeck ∧
  NoDup (zones (game a)) ∧
  NoDup (card_id <$> zones (game a)) ∧
  ∀ s r, newCard s r ∈ zones (game a).
Proof.
  intros Hc%reachable_conserved. unfold conserved in Hc.
  assert (NoDup (card_id <$> zones (game a))) as Hids
    by (rewrite Hc; apply orderedDeck_ids_NoDup).
  split_and!; [done|by apply (NoDup_fmap_1 card_id)|done|].
  intros s r. rewrite Hc. apply newCard_in_orderedDeck.
Qed.

(** X8 where the computer has just played its eight. *)
Lemma cards_conserved_witness :
  NoDup (zones afterEight) ∧ newCard SPADES EIGHT ∈ zones afterEight.
Proof.
  destruct (cards_conserved (mkApp afterEight [HEARTS]) afterEight_reachable)
    as (_ & Hnd & _ & Hin).
  split; [exact Hnd|exact (Hin SPADES EIGHT)].
Defined.

(** X9. Whatever comes of it, [playCard] on a card of a hand with
    distinct ids takes that card and no other out of the hand, keeping
    the order of the rest, puts it on top of the discard pile, and leaves
    the deck and the other hand alone. *)
Theorem playCard_moves_card gs card isPlayer :
  NoDup (card_id <$> handOf gs isPlayer) →
  card ∈ handOf gs isPlayer →
  handOf gs isPlayer ≡ₚ card :: handOf (playCard gs card isPlayer).1 isPlayer ∧
  handOf (playCard gs card isPlayer).1 isPlayer `sublist_of` handOf gs isPlayer ∧
  S (length (handOf (playCard gs card isPlayer).1 isPlayer))
    = length (handOf gs isPlayer) ∧
  last (discardPile (playCard gs card isPlayer).1) = Some card ∧
  discardPile (playCard gs card isPlayer).1 = discardPile gs ++ [card] ∧
  deck (playCard gs card isPlayer).1 = deck gs ∧
  handOf (playCard gs card isPlayer).1 (negb isPlayer)
    = handOf gs (negb isPlayer).
Proof.
  intros Hnd Hin.
  pose proof (filter_id_removes _ _ Hnd Hin) as Hperm.
  rewrite playCard_hand, playCard_discardPile, playCard_deck,
    playCard_other_hand.
  split_and!; try done.
  - apply sublist_filter.
  - apply Permutation_length in Hperm. by rewrite Hperm.
  - apply last_snoc.
Qed.

(** X9 on the fresh deal: the player plays 4♥. *)
Lemma playCard_moves_card_witness :
  S (length (playerHand (playCard dealt (newCard HEARTS FOUR) true).1)) = 8 ∧
  last (discardPile (playCard dealt (newCard HEARTS FOUR) true).1)
  = Some (newCard HEARTS FOUR).
Proof.
  destruct (playCard_moves_card dealt (newCard HEARTS FOUR) true)
    as (_ & _ & Hlen & Hlast & _).
  - apply (bool_decide_unpack _). vm_compute. exact I.
  - apply (bool_decide_unpack _). vm_compute. exact I.
  - split; [exact Hlen|exact Hlast].
Defined.

(** X10. No operation puts a card back: in one step the deck stays as it
    is or loses its last card, and the discard pile stays as it is or
    gains one card on top. *)
Theorem deck_shrinks_discard_grows a a' :
  step a a' →
  (deck (game a') = deck (game a)
   ∨ ∃ c, deck (game a) = deck (game a') ++ [c]) ∧
  (discardPile (game a') = discardPile (game a)
   ∨ ∃ c, discardPile (game a') = discardPile (game a) ++ [c]).
Proof.
  destruct 1 as
    [gs ts card isPlayer gs' t Hin Hplay|gs ts isPlayer gs' Hdraw| | |];
    simpl; auto.
  - replace gs' with (playCard gs card isPlayer).1 by (by rewrite Hplay).
    rewrite playCard_deck, playCard_discardPile. eauto.
  - apply drawCard_keeps in Hdraw as (_ & _ & _ & -> & _ & Hdeck). auto.
Qed.

(** X10 on the player's 4♥. *)
Lemma deck_shrinks_discard_grows_witness :
  (deck afterFour = deck dealt ∨ ∃ c, deck dealt = deck afterFour ++ [c]) ∧
  (discardPile afterFour = discardPile dealt
   ∨ ∃ c, discardPile afterFour = discardPile dealt ++ [c]).
Proof.
  exact (deck_shrinks_discard_grows (mkApp dealt []) (mkApp afterFour [])
           dealt_afterFour_step).
Defined.

(** X11. The phases of a game in progress: an event of the game (a click
    on a card, on the deck or on a suit, a surrender, the computer's move,
    a scheduled wild-suit update) leaves the phase as it is, or goes from
    PLAYING to WILD_SELECTION or to GAME_OVER, or from WILD_SELECTION back
    to PLAYING; none of them leads to START or out of GAME_OVER. *)
Theorem phase_transitions a a' :
  event a a' →
  (status (game a') = status (game a)
   ∨ (status (game a) = PLAYING ∧ status (game a') = WILD_SELECTION)
   ∨ (status (game a) = PLAYING ∧ status (game a') = GAME_OVER)
   ∨ (status (game a) = WILD_SELECTION ∧ status (game a') = PLAYING)) ∧
  (status (game a) ≠ START → status (game a') ≠ START) ∧
  (status (game a) = GAME_OVER → status (game a') = GAME_OVER).
Proof.
  intros Hev. pose proof (event_phase a a' Hev) as Hphase.
  split; [done|].
  destruct Hphase as [->|[[-> ->]|[[-> ->]|[-> ->]]]]; done.
Qed.

(** X11 on the player's 4♥. *)
Lemma phase_transitions_witness :
  status afterFour ≠ START.
Proof.
  apply (proj1 (proj2 (phase_transitions (mkApp dealt []) (mkApp afterFour [])
                         dealt_afterFour_event))).
  vm_compute. discriminate.
Defined.

(** X12. In a game played from a deal by these events there is a winner
    exactly when the phase is GAME_OVER, and the phase is never START. *)
Theorem winner_iff_game_over a :
  played a →
  status (game a) ≠ START ∧
  (status (game a) = GAME_OVER ↔ ∃ w, winner (game a) = Some w).
Proof.
  intros [Hst Hw]%played_winner. split; [done|].
  rewrite Hw. destruct (winner (game a)); split; try done; eauto.
  by intros [? ?].
Qed.

(** X12 where the computer has just played its eight. *)
Lemma winner_iff_game_over_witness :
  status afterEight ≠ START ∧
  (status afterEight = GAME_OVER ↔ ∃ w, winner afterEight = Some w).
Proof. exact (winner_iff_game_over (mkApp afterEight [HEARTS]) afterEight_played). Defined.

(** X13. Once the game is over none of these events changes the winner,
    the discard pile or the computer's hand, and the game stays over (a
    click on the deck can still add a card to the player's hand). *)
Theorem game_over_is_final a a' :
  event a a' → status (game a) = GAME_OVER →
  status (game a') = GAME_OVER ∧
  winner (game a') = winner (game a) ∧
  discardPile (game a') = discardPile (game a) ∧
  aiHand (game a') = aiHand (game a).
Proof. apply event_game_over. Qed.

(** X13 after the player gave up: a click on the deck still draws, and
    the computer stays the winner. *)
Lemma game_over_is_final_witness :
  status gaveUpDrew = GAME_OVER ∧ winner gaveUpDrew = Some AI ∧
  length (playerHand gaveUpDrew) = 9.
Proof.
  destruct (game_over_is_final (mkApp gaveUp []) (mkApp gaveUpDrew [])
              gaveUp_drew_event eq_refl) as (Hst & Hw & _).
  split_and!; [exact Hst|exact Hw|reflexivity].
Defined.

(** X14. Drawing a card and playing it at once leaves the hand as it was
    before the draw: the deck has lost its last card and the discard pile
    has gained it. *)
Theorem draw_then_play gs isPlayer newDeck drawnCard topCard :
  deck gs = newDeck ++ [drawnCard] →
  last (discardPile gs) = Some topCard →
  card_id drawnCard ∉ card_id <$> handOf gs isPlayer →
  ∃ gs1, drawCard gs isPlayer = Some gs1 ∧
    handOf (playCard gs1 drawnCard isPlayer).1 isPlayer = handOf gs isPlayer ∧
    handOf (playCard gs1 drawnCard isPlayer).1 (negb isPlayer)
      = handOf gs (negb isPlayer) ∧
    deck (playCard gs1 drawnCard isPlayer).1 = newDeck ∧
    discardPile (playCard gs1 drawnCard isPlayer).1
      = discardPile gs ++ [drawnCard].
Proof.
  intros Hdeck Htop Hid. unfold drawCard.
  rewrite bool_decide_eq_false_2
    by (rewrite Hdeck, length_app; simpl; lia).
  rewrite Hdeck, pop_snoc, (checkPlayable_legal _ _ _ Htop).
  destruct isPlayer; (eexists; split; [reflexivity|]);
    rewrite playCard_hand, playCard_other_hand, playCard_deck,
      playCard_discardPile; simpl in *;
    rewrite filter_app, filter_other_ids by done;
    rewrite filter_cons_False, filter_nil, app_nil_r
      by (intros H; by apply H);
    done.
Qed.

(** X14 on the fresh deal: the player draws K♠ and puts it down. *)
Lemma draw_then_play_witness :
  ∃ gs1, drawCard dealt true = Some gs1 ∧
    playerHand (playCard gs1 (newCard SPADES KING) true).1 = playerHand dealt.
Proof.
  destruct (draw_then_play dealt true (take 34 (deck dealt))
              (newCard SPADES KING) (newCard DIAMONDS FOUR) eq_refl eq_refl)
    as (gs1 & Hdraw & Hhand & _).
  - apply (bool_decide_unpack _). vm_compute. exact I.
  - exists gs1. split; [exact Hdraw|exact Hhand].
Defined.

(** X15. An eight played from a hand that keeps cards: the player's eight
    opens the choice of suit, turn and active suit staying as they were,
    and the choice of [s] then makes [s] the active suit and gives the
    turn to the computer; the computer's eight schedules its own choice,
    the most frequent suit of the cards it keeps, and that update makes
    it the active suit and gives the turn to the player. *)
Theorem eight_then_suit gs card isPlayer :
  rank card = EIGHT →
  filter (λ c, card_id c ≠ card_id card) (handOf gs isPlayer) ≠ [] →
  if isPlayer then
    (playCard gs card true).2 = None ∧
    status (playCard gs card true).1 = WILD_SELECTION ∧
    currentTurn (playCard gs card true).1 = currentTurn gs ∧
    activeSuit (playCard gs card true).1 = activeSuit gs ∧
    ∀ s,
      onSuitClick (playCard gs card true).1 s
      = selectWildSuit (playCard gs card true).1 s ∧
      activeSuit (onSuitClick (playCard gs card true).1 s) = Some s ∧
      currentTurn (onSuitClick (playCard gs card true).1 s) = AI ∧
      status (onSuitClick (playCard gs card true).1 s) = PLAYING ∧
      zones (onSuitClick (playCard gs card true).1 s)
      = zones (playCard gs card true).1
  else
    (playCard gs card false).2
      = Some (bestSuit (filter (λ c, card_id c ≠ card_id card) (aiHand gs))) ∧
    status (playCard gs card false).1 = PLAYING ∧
    currentTurn (playCard gs card false).1 = currentTurn gs ∧
    activeSuit (playCard gs card false).1 = None ∧
    ∀ s, (playCard gs card false).2 = Some s →
      activeSuit (wildTimeout s (playCard gs card false).1) = Some s ∧
      currentTurn (wildTimeout s (playCard gs card false).1) = PLAYER ∧
      status (wildTimeout s (playCard gs card false).1) = PLAYING ∧
      zones (wildTimeout s (playCard gs card false).1)
      = zones (playCard gs card false).1.
Proof.
  intros Hrank Hne.
  assert (length (filter (λ c, card_id c ≠ card_id card) (handOf gs isPlayer))
          ≠ 0) as Hlen by (by intros ?%nil_length_inv).
  unfold playCard, onSuitClick.
  destruct isPlayer; simpl in Hlen;
    rewrite (bool_decide_eq_false_2 _ Hlen), (bool_decide_eq_true_2 _ Hrank);
    simpl; done.
Qed.

(** X15 in the example: the player's 8♥ on the fresh deal, and the
    computer's 8♠ after the player's 4♥. *)
Lemma eight_then_suit_witness :
  status (playCard dealt (newCard HEARTS EIGHT) true).1 = WILD_SELECTION ∧
  (playCard afterFour (newCard SPADES EIGHT) false).2 = Some HEARTS.
Proof.
  split.
  - refine (proj1 (proj2 (eight_then_suit dealt (newCard HEARTS EIGHT) true
                            eq_refl _))).
    vm_compute. discriminate.
  - refine (proj1 (eight_then_suit afterFour (newCard SPADES EIGHT) false
                     eq_refl _)).
    vm_compute. discriminate.
Defined.

(** ** Further properties: the computer's policy *)

(** X16. On its turn in the PLAYING phase the computer draws exactly when
    no card of its hand is legal; otherwise it plays a legal card of its
    hand. *)
Theorem aiTurn_draws_iff_nothing_playable gs pick topCard :
  currentTurn gs = AI → status gs = PLAYING →
  last (discardPile gs) = Some topCard →
  (filter (λ c, legal c topCard (activeSuit gs)) (aiHand gs) = [] →
   aiTurn gs pick = (λ gs', (gs', None)) <$> drawCard gs false) ∧
  (filter (λ c, legal c topCard (activeSuit gs)) (aiHand gs) ≠ [] →
   ∃ c, c ∈ aiHand gs ∧ legal c topCard (activeSuit gs) ∧
        aiTurn gs pick = Some (playCard gs c false)).
Proof.
  intros Hturn Hst Htop. unfold aiTurn.
  rewrite bool_decide_eq_true_2 by done.
  rewrite (filterPlayable_filter _ _ _ Htop). split.
  - intros ->. rewrite bool_decide_eq_false_2 by (simpl; lia).
    by destruct (drawCard gs false).
  - intros Hne.
    rewrite bool_decide_eq_true_2
      by (destruct (filter _ _); [done|simpl; lia]).
    destruct (cardToPlay_is_Some gs pick _ Hne) as [c Hc]. rewrite Hc.
    apply cardToPlay_elem, list_elem_of_filter in Hc as [Hlegal Hin].
    by exists c.
Qed.

(** X16 with nothing to play on K♠, and with four playable cards. *)
Lemma aiTurn_draws_iff_nothing_playable_witness :
  aiTurn mustDraw 0 = (λ gs', (gs', None)) <$> drawCard mustDraw false ∧
  ∃ c, c ∈ aiHand hardChoice
       ∧ legal c (newCard SPADES THREE) (activeSuit hardChoice)
       ∧ aiTurn hardChoice 0 = Some (playCard hardChoice c false).
Proof.
  split.
  - apply (proj1 (aiTurn_draws_iff_nothing_playable mustDraw 0
                    (newCard SPADES KING) eq_refl eq_refl eq_refl)).
    vm_compute. reflexivity.
  - apply (proj2 (aiTurn_draws_iff_nothing_playable hardChoice 0
                    (newCard SPADES THREE) eq_refl eq_refl eq_refl)).
    vm_compute. discriminate.
Defined.

(** X17. On the MEDIUM and HARD tiers the computer plays an eight only
    when every playable card is an eight. *)
Theorem eights_kept_for_last gs pick playableCards c :
  difficulty gs ≠ EASY →
  cardToPlay gs pick playableCards = Some c →
  rank c = EIGHT →
  ∀ c', c' ∈ playableCards → rank c' = EIGHT.
Proof.
  intros Hd Hc Hrank. unfold cardToPlay in Hc.
  destruct (difficulty gs); [done| |].
  - destruct (find _ _) as [nonEight|] eqn:Hfind.
    + injection Hc as ->. apply find_some in Hfind as [_ Hne].
      by apply bool_decide_eq_true in Hne.
    + by apply find_nonEight_None.
  - case_bool_decide as Hlen.
    + apply reduceBySuitCount_elem, list_elem_of_filter in Hc as [Hne _].
      done.
    + intros c' Hin. destruct (decide (rank c' = EIGHT)) as [|Hne]; [done|].
      exfalso. apply Hlen.
      assert (c' ∈ filter (λ c, rank c ≠ EIGHT) playableCards) as Hf
        by (by apply list_elem_of_filter).
      destruct (filter _ playableCards); [by apply not_elem_of_nil in Hf|].
      simpl. lia.
Qed.

(** X17 on the HARD tier with 8♣ and 8♦ to play. *)
Lemma eights_kept_for_last_witness :
  cardToPlay hardChoice 0 [newCard CLUBS EIGHT; newCard DIAMONDS EIGHT]
  = Some (newCard CLUBS EIGHT) ∧
  rank (newCard DIAMONDS EIGHT) = EIGHT.
Proof.
  split; [reflexivity|].
  apply (eights_kept_for_last hardChoice 0
           [newCard CLUBS EIGHT; newCard DIAMONDS EIGHT] (newCard CLUBS EIGHT)).
  - vm_compute. discriminate.
  - vm_compute. reflexivity.
  - reflexivity.
  - apply (bool_decide_unpack _). vm_compute. exact I.
Defined.

(** X18. On the MEDIUM tier the computer plays the first playable card,
    in the order of its hand, that is not an eight. *)
Theorem medium_first_nonEight gs pick (before after : list Card) c :
  difficulty gs = MEDIUM →
  (∀ x, x ∈ before → rank x = EIGHT) →
  rank c ≠ EIGHT →
  cardToPlay gs pick (before ++ c :: after) = Some c.
Proof.
  intros Hd Hbefore Hc. unfold cardToPlay. rewrite Hd.
  by rewrite find_nonEight_first.
Qed.

(** X18 with 8♣ before 2♣ and J♦. *)
Lemma medium_first_nonEight_witness :
  cardToPlay mustDraw 0
    ([newCard CLUBS EIGHT] ++ newCard CLUBS TWO :: [newCard DIAMONDS JACK])
  = Some (newCard CLUBS TWO).
Proof.
  apply medium_first_nonEight.
  - reflexivity.
  - intros x ->%list_elem_of_singleton. reflexivity.
  - simpl. discriminate.
Defined.

(** X19. On the HARD tier, when some playable card is not an eight, the
    computer plays a playable card that is not an eight and whose suit it
    holds most: no playable card that is not an eight has a suit with
    more cards in the computer's hand, and those before it, in the order
    of the hand, have a suit with fewer. *)
Theorem hard_most_frequent_suit gs pick playableCards c :
  difficulty gs = HARD →
  cardToPlay gs pick playableCards = Some c →
  rank c ≠ EIGHT →
  ∃ i, filter (λ c, rank c ≠ EIGHT) playableCards !! i = Some c ∧
    (∀ c', c' ∈ playableCards → rank c' ≠ EIGHT →
       countSuit (suit c') (aiHand gs) ≤ countSuit (suit c) (aiHand gs)) ∧
    (∀ k c', k < i →
       filter (λ c, rank c ≠ EIGHT) playableCards !! k = Some c' →
       countSuit (suit c') (aiHand gs) < countSuit (suit c) (aiHand gs)).
Proof.
  intros Hd Hc Hrank. unfold cardToPlay in Hc. rewrite Hd in Hc.
  case_bool_decide as Hlen.
  - apply reduceBySuitCount_first_max in Hc as (i & Hi & Hmax & Hfirst).
    exists i. split_and!; [done| |].
    + intros c' Hin Hne.
      assert (c' ∈ filter (λ c, rank c ≠ EIGHT) playableCards)
        as [k Hk]%list_elem_of_lookup_1 by (by apply list_elem_of_filter).
      specialize (Hmax _ _ Hk). rewrite !suitCounts_countSuit in Hmax. lia.
    + intros k c' Hlt Hk. specialize (Hfirst _ _ Hlt Hk).
      rewrite !suitCounts_countSuit in Hfirst. lia.
  - exfalso. apply Hlen.
    assert (c ∈ filter (λ c, rank c ≠ EIGHT) playableCards) as Hf.
    { apply list_elem_of_filter. split; [done|]. by apply head_Some_elem_of. }
    destruct (filter _ playableCards); [by apply not_elem_of_nil in Hf|].
    simpl. lia.
Qed.

(** X19 on 3♠ with 3♥ 3♦ 7♦ 8♣ in hand: of 3♥ and 3♦ the computer
    plays 3♦, holding two diamonds and one heart. *)
Lemma hard_most_frequent_suit_witness :
  cardToPlay hardChoice 0
    [newCard HEARTS THREE; newCard DIAMONDS THREE; newCard CLUBS EIGHT]
  = Some (newCard DIAMONDS THREE) ∧
  countSuit HEARTS (aiHand hardChoice) < countSuit DIAMONDS (aiHand hardChoice).
Proof.
  split; [reflexivity|].
  destruct (hard_most_frequent_suit hardChoice 0
              [newCard HEARTS THREE; newCard DIAMONDS THREE; newCard CLUBS EIGHT]
              (newCard DIAMONDS THREE) eq_refl eq_refl)
    as (i & Hi & _ & Hfirst).
  - simpl. discriminate.
  - destruct i as [|i]; [vm_compute in Hi; discriminate Hi|].
    apply (Hfirst 0 (newCard HEARTS THREE)); [lia|reflexivity].
Defined.

(** X20. On the EASY tier every playable card can be the one played, and
    nothing else can. *)
Theorem easy_any_playable gs playableCards c :
  difficulty gs = EASY →
  c ∈ playableCards ↔ ∃ pick, cardToPlay gs pick playableCards = Some c.
Proof.
  intros Hd. unfold cardToPlay. rewrite Hd. split.
  - intros [i Hi]%list_elem_of_lookup_1. exists i.
    rewrite Nat.mod_small; [done|]. by eapply lookup_lt_Some.
  - intros [pick Hpick]. by eapply list_elem_of_lookup_2.
Qed.

(** X20 after the player's 4♥: the computer may play Q♥. *)
Lemma easy_any_playable_witness :
  ∃ pick,
    cardToPlay afterFour pick
      [newCard SPADES EIGHT; newCard HEARTS TEN; newCard HEARTS JACK;
       newCard HEARTS QUEEN; newCard HEARTS KING]
    = Some (newCard HEARTS QUEEN).
Proof.
  apply (proj1 (easy_any_playable afterFour _ (newCard HEARTS QUEEN) eq_refl)).
  apply (bool_decide_unpack _). vm_compute. exact I.
Defined.

(** X21. Only legal moves are made. An event of the game changes nothing,
    or is a play in the PLAYING phase by the actor whose turn it is, of a
    card of that actor's hand that [checkPlayable] accepts, or a draw by
    the actor whose turn it is (the computer's only in the PLAYING phase),
    or a choice of suit in the WILD_SELECTION phase, or a surrender in the
    PLAYING phase, or a scheduled wild-suit update. *)
Theorem events_are_guarded_operations a a' :
  event a a' →
  game a' = game a
  ∨ (status (game a) = PLAYING
     ∧ ∃ card isPlayer,
         currentTurn (game a) = actorOf isPlayer
         ∧ card ∈ handOf (game a) isPlayer
         ∧ checkPlayable (game a) card = Some true
         ∧ game a' = (playCard (game a) card isPlayer).1)
  ∨ (∃ isPlayer,
       currentTurn (game a) = actorOf isPlayer
       ∧ (isPlayer = false → status (game a) = PLAYING)
       ∧ drawCard (game a) isPlayer = Some (game a'))
  ∨ (status (game a) = WILD_SELECTION
     ∧ ∃ s, game a' = selectWildSuit (game a) s)
  ∨ (status (game a) = PLAYING ∧ game a' = surrender (game a))
  ∨ (∃ s, game a' = wildTimeout s (game a)).
Proof. apply event_cases. Qed.

(** X21 on the player's 4♥, which is the play of a legal card. *)
Lemma events_are_guarded_operations_witness :
  status dealt = PLAYING ∧
  ∃ card isPlayer,
    currentTurn dealt = actorOf isPlayer
    ∧ card ∈ handOf dealt isPlayer
    ∧ checkPlayable dealt card = Some true
    ∧ afterFour = (playCard dealt card isPlayer).1.
Proof.
  destruct (events_are_guarded_operations (mkApp dealt []) (mkApp afterFour [])
              dealt_afterFour_event)
    as [Hsame|[Hplay|[(isPlayer & _ & _ & Hdraw)|[[Hst _]|[[_ Hsur]|[s Hs]]]]]].
  - vm_compute in Hsame. discriminate Hsame.
  - exact Hplay.
  - apply drawCard_keeps in Hdraw as (_ & _ & _ & Hd & _).
    vm_compute in Hd. discriminate Hd.
  - vm_compute in Hst. discriminate Hst.
  - vm_compute in Hsur. discriminate Hsur.
  - apply (f_equal currentTurn) in Hs. vm_compute in Hs. discriminate Hs.
Defined.
